(** * SystemdJournal2Gelf: normalization and delivery of journal entries

    A shallow embedding of [SystemdJournal2Gelf.go].  Go strings are byte
    sequences; they are modelled as [string] (a list of 8-bit [ascii]
    characters).  The two collaborators the program takes from Go's standard
    library, [regexp] and [encoding/json], are modelled by the modules
    [Regexp] and [Json] from their documented behaviour. *)

From Stdlib Require Import ZArith Ascii String List Lia Bool.
From stdpp Require Import base option list strings gmap.

Local Open Scope string_scope.
Local Open Scope list_scope.
Local Open Scope nat_scope.

(** ** Characters and strings *)

Definition code (c : ascii) : nat := nat_of_ascii c.

Definition in_range (lo hi c : ascii) : bool :=
  (code lo <=? code c)%nat && (code c <=? code hi)%nat.

Definition chars (s : string) : list ascii := list_ascii_of_string s.
Definition text (l : list ascii) : string := string_of_list_ascii l.

(** The double quote, which a string literal cannot hold. *)
Definition dq : ascii := "034"%char.
(** The line feed. *)
Definition lf : ascii := "010"%char.

(** [src[i:j]] on a byte sequence. *)
Definition slice (l : list ascii) (i j : nat) : list ascii :=
  take (j - i) (drop i l).

(** ** Go's [regexp], for the syntax the patterns of the program use *)

Module Regexp.

(** The syntax tree of a pattern: beginning of text, one byte, a class given
    by inclusive ranges, concatenation, the greedy repetitions and capturing
    groups (numbered by their opening parenthesis, from 1, with their name,
    empty when unnamed). *)
Inductive regex : Type :=
| EmptyMatch
| BeginText
| Literal (c : ascii)
| CharClass (ranges : list (ascii * ascii))
| Concat (r1 r2 : regex)
| Star (r : regex)
| Plus (r : regex)
| Quest (r : regex)
| Repeat (min : nat) (max : option nat) (r : regex)
| Capture (idx : nat) (name : string) (r : regex).

Definition class_has (ranges : list (ascii * ascii)) (c : ascii) : bool :=
  existsb (fun p => in_range (fst p) (snd p) c) ranges.

(** Captured texts, by group number; a later capture of a group shadows an
    earlier one. *)
Definition caps : Type := list (nat * list ascii).

Fixpoint cap_get (i : nat) (c : caps) : option (list ascii) :=
  match c with
  | [] => None
  | (j, v) :: c' => if (i =? j)%nat then Some v else cap_get i c'
  end.

Section Matcher.
Context {A : Type}.

(** A continuation receives the position reached, the input left and the
    captures made so far. *)
Definition cont : Type := nat -> list ascii -> caps -> option A.

Definition orelse (x y : option A) : option A :=
  match x with Some _ => x | None => y end.

(** Greedy iteration of [step], at most [n] times: one more iteration is
    preferred to stopping, and an iteration that consumes nothing is
    refused. *)
Fixpoint star_loop (step : nat -> list ascii -> caps -> cont -> option A)
    (n : nat) (pos : nat) (s : list ascii) (c : caps) (k : cont) : option A :=
  match n with
  | O => k pos s c
  | S n' =>
      orelse
        (step pos s c (fun pos' s' c' =>
           if (pos' =? pos)%nat then None else star_loop step n' pos' s' c' k))
        (k pos s c)
  end.

(** Exactly [n] iterations of [step]. *)
Fixpoint times_loop (step : nat -> list ascii -> caps -> cont -> option A)
    (n : nat) (pos : nat) (s : list ascii) (c : caps) (k : cont) : option A :=
  match n with
  | O => k pos s c
  | S n' => step pos s c (fun pos' s' c' => times_loop step n' pos' s' c' k)
  end.

(** Backtracking matcher: the first success in the order a backtracking
    search tries the alternatives is the leftmost-first match of Go's
    [regexp]. *)
Fixpoint run (r : regex) (pos : nat) (s : list ascii) (c : caps) (k : cont)
    {struct r} : option A :=
  match r with
  | EmptyMatch => k pos s c
  | BeginText => if (pos =? 0)%nat then k pos s c else None
  | Literal a =>
      match s with
      | x :: s' => if Ascii.eqb x a then k (S pos) s' c else None
      | [] => None
      end
  | CharClass rs =>
      match s with
      | x :: s' => if class_has rs x then k (S pos) s' c else None
      | [] => None
      end
  | Concat r1 r2 => run r1 pos s c (fun pos' s' c' => run r2 pos' s' c' k)
  | Star r1 => star_loop (run r1) (S (length s)) pos s c k
  | Plus r1 =>
      run r1 pos s c (fun pos' s' c' =>
        star_loop (run r1) (S (length s')) pos' s' c' k)
  | Quest r1 => orelse (run r1 pos s c k) (k pos s c)
  | Repeat lo hi r1 =>
      times_loop (run r1) lo pos s c (fun pos' s' c' =>
        match hi with
        | None => star_loop (run r1) (S (length s')) pos' s' c' k
        | Some h => star_loop (run r1) (h - lo) pos' s' c' k
        end)
  | Capture i _ r1 =>
      run r1 pos s c (fun pos' s' c' =>
        k pos' s' ((i, take (pos' - pos) s) :: c'))
  end.
End Matcher.

(** A match: where it starts, where it ends, and its captures. *)
Definition found : Type := nat * nat * caps.

Definition match_here (r : regex) (pos : nat) (s : list ascii) : option found :=
  run r pos s [] (fun pos' _ c => Some (pos, pos', c)).

(** Leftmost match at or after [pos], [s] being the input from [pos] on. *)
Fixpoint search (r : regex) (pos : nat) (s : list ascii) : option found :=
  match match_here r pos s with
  | Some m => Some m
  | None =>
      match s with
      | [] => None
      | _ :: s' => search r (S pos) s'
      end
  end.

(** [re.doExecute(..., src, pos, ...)]: the leftmost match of [src] that
    starts at [pos] or later; [^] still means position 0 of [src]. *)
Definition doExecute (r : regex) (src : list ascii) (pos : nat) : option found :=
  if (pos <=? length src)%nat then search r pos (drop pos src) else None.

(** *** Parsing a pattern

    The part of [regexp/syntax] the patterns of the program need: literals,
    escaped punctuation, classes of bytes and ranges, [^], groups [( )] and
    [(?P<name> )], and the postfix operators.  Anything else ([.], [|], [$],
    negated classes, Perl classes, flags, lazy operators) is refused with
    [None]. *)

Definition is_digit (c : ascii) : bool := in_range "0" "9" c.

Definition is_alnum (c : ascii) : bool :=
  is_digit c || in_range "a" "z" c || in_range "A" "Z" c.

Definition is_punct (c : ascii) : bool :=
  (code c <? 128)%nat && (32 <? code c)%nat && negb (is_alnum c).

Definition digit_val (c : ascii) : nat := code c - code "0".

Fixpoint digits (acc : nat) (s : list ascii) : nat * list ascii :=
  match s with
  | c :: s' => if is_digit c then digits (10 * acc + digit_val c) s' else (acc, s)
  | [] => (acc, s)
  end.

(** [parser.parseInt]: a run of digits, without a leading zero on a number
    of two digits or more. *)
Definition parseInt (s : list ascii) : option (nat * list ascii) :=
  match s with
  | c :: s' =>
      if negb (is_digit c) then None
      else match s' with
           | c' :: _ => if Ascii.eqb c "0" && is_digit c' then None else Some (digits 0 s)
           | [] => Some (digits 0 s)
           end
  | [] => None
  end.

Inductive repeat_result : Type :=
| NotRepeat
| BadRepeat
| IsRepeat (min : nat) (max : option nat) (rest : list ascii).

(** [parser.repeat] on the text that follows a [{]: [{n}], [{n,}] or
    [{n,m}]; any other text is not a repetition, and the [{] is then a
    literal. *)
Definition repeat (s : list ascii) : repeat_result :=
  match parseInt s with
  | None => NotRepeat
  | Some (lo, s1) =>
      match s1 with
      | "}"%char :: rest => IsRepeat lo (Some lo) rest
      | ","%char :: "}"%char :: rest => IsRepeat lo None rest
      | ","%char :: s2 =>
          match parseInt s2 with
          | Some (hi, "}"%char :: rest) =>
              if (hi <? lo)%nat then BadRepeat else IsRepeat lo (Some hi) rest
          | _ => NotRepeat
          end
      | _ => NotRepeat
      end
  end.

(** One member of a class: a byte or an escaped punctuation sign. *)
Definition class_char (s : list ascii) : option (ascii * list ascii) :=
  match s with
  | "\"%char :: c :: s' => if is_punct c then Some (c, s') else None
  | c :: s' => Some (c, s')
  | [] => None
  end.

(** The members of a class up to its closing bracket. *)
Fixpoint class_items (fuel : nat) (first : bool) (s : list ascii)
    : option (list (ascii * ascii) * list ascii) :=
  match fuel with
  | O => None
  | S fuel' =>
      match s with
      | [] => None
      | "]"%char :: s' =>
          if first then
            '(rs, rest) ← class_items fuel' false s'; Some (("]"%char, "]"%char) :: rs, rest)
          else Some ([], s')
      | "["%char :: ":"%char :: _ => None
      | _ =>
          '(lo, s1) ← class_char s;
          match s1 with
          | "-"%char :: "]"%char :: _ =>
              '(rs, rest) ← class_items fuel' false s1; Some ((lo, lo) :: rs, rest)
          | "-"%char :: s2 =>
              '(hi, s3) ← class_char s2;
              if (code hi <? code lo)%nat then None
              else '(rs, rest) ← class_items fuel' false s3; Some ((lo, hi) :: rs, rest)
          | _ => '(rs, rest) ← class_items fuel' false s1; Some ((lo, lo) :: rs, rest)
          end
      end
  end.

Fixpoint group_name (s : list ascii) : option (list ascii * list ascii) :=
  match s with
  | ">"%char :: s' => Some ([], s')
  | c :: s' =>
      if is_alnum c || Ascii.eqb c "_" then
        '(n, rest) ← group_name s'; Some (c :: n, rest)
      else None
  | [] => None
  end.

(** The postfix operator after an atom, if any.  A second operator after
    the first (a lazy [?] or a nested repetition) is refused. *)
Definition is_operator (s : list ascii) : bool :=
  match s with
  | "*"%char :: _ | "+"%char :: _ | "?"%char :: _ => true
  | "{"%char :: s' => match repeat s' with NotRepeat => false | _ => true end
  | _ => false
  end.

Definition postfix (a : regex) (s : list ascii) : option (regex * list ascii) :=
  let single (r : regex) (rest : list ascii) :=
    if is_operator rest then None else Some (r, rest) in
  match s with
  | "*"%char :: s' => single (Star a) s'
  | "+"%char :: s' => single (Plus a) s'
  | "?"%char :: s' => single (Quest a) s'
  | "{"%char :: s' =>
      match repeat s' with
      | NotRepeat => Some (a, s)
      | BadRepeat => None
      | IsRepeat lo hi rest => single (Repeat lo hi a) rest
      end
  | _ => Some (a, s)
  end.

Definition cat (a tl : regex) : regex :=
  match tl with EmptyMatch => a | _ => Concat a tl end.

(** A sequence of atoms with their operators, up to the end of the pattern
    or to the parenthesis that closes the enclosing group; [idx] is the
    number the next group gets. *)
Fixpoint parse_seq (fuel : nat) (idx : nat) (s : list ascii)
    : option (regex * nat * list ascii) :=
  match fuel with
  | O => None
  | S fuel' =>
      let continue (a : regex) (idx1 : nat) (s1 : list ascii) :=
        '(a', s2) ← postfix a s1;
        '(tl, idx2, s3) ← parse_seq fuel' idx1 s2;
        Some (cat a' tl, idx2, s3) in
      let group (name : list ascii) (body : list ascii) :=
        '(r, idx1, s1) ← parse_seq fuel' (S idx) body;
        match s1 with
        | ")"%char :: s2 => continue (Capture idx (text name) r) idx1 s2
        | _ => None
        end in
      match s with
      | [] => Some (EmptyMatch, idx, [])
      | ")"%char :: _ => Some (EmptyMatch, idx, s)
      | "("%char :: "?"%char :: "P"%char :: "<"%char :: s' =>
          '(name, body) ← group_name s'; group name body
      | "("%char :: "?"%char :: _ => None
      | "("%char :: body => group [] body
      | "["%char :: "^"%char :: _ => None
      | "["%char :: s' =>
          '(rs, s1) ← class_items (S (length s')) true s'; continue (CharClass rs) idx s1
      | "^"%char :: s' => continue BeginText idx s'
      | "\"%char :: c :: s' => if is_punct c then continue (Literal c) idx s' else None
      | "{"%char :: s' =>
          match repeat s' with
          | NotRepeat => continue (Literal "{") idx s'
          | _ => None
          end
      | "\"%char :: [] | "*"%char :: _ | "+"%char :: _ | "?"%char :: _
      | "."%char :: _ | "|"%char :: _ | "$"%char :: _ => None
      | c :: s' => continue (Literal c) idx s'
      end
  end.

(** [regexp.Compile]. *)
Definition Compile (pattern : string) : option regex :=
  match parse_seq (S (String.length pattern)) 1 (chars pattern) with
  | Some (r, _, []) => Some r
  | _ => None
  end.

(** *** The operations of a compiled pattern *)

(** Names of the groups, by opening parenthesis. *)
Fixpoint group_names (r : regex) : list string :=
  match r with
  | EmptyMatch | BeginText | Literal _ | CharClass _ => []
  | Concat r1 r2 => group_names r1 ++ group_names r2
  | Star r1 | Plus r1 | Quest r1 | Repeat _ _ r1 => group_names r1
  | Capture _ name r1 => name :: group_names r1
  end.

(** [re.SubexpNames()]: the name of group 0, the whole match, is empty. *)
Definition SubexpNames (r : regex) : list string := "" :: group_names r.

Definition NumSubexp (r : regex) : nat := length (group_names r).

(** The texts of a match: the whole match, then each group, empty when the
    group took no part in the match. *)
Definition submatches (r : regex) (src : list ascii) (m : found) : list string :=
  let '(a0, a1, c) := m in
  text (slice src a0 a1)
    :: map (fun i => text (default [] (cap_get i c))) (seq 1 (NumSubexp r)).

(** [re.FindStringSubmatch(s)]; [None] is Go's nil slice. *)
Definition FindStringSubmatch (r : regex) (s : string) : option (list string) :=
  submatches r (chars s) <$> doExecute r (chars s) 0.

(** Where the search resumes after a match that ends at [a1]: at the end
    of the match, or, when the match is empty, one character after
    [searchPos].  The character is taken here as one byte; Go steps over a
    whole UTF-8 sequence, which differs only after an empty match. *)
Definition advance (src : list ascii) (searchPos a1 : nat) : nat :=
  let width := if (searchPos <? length src)%nat then 1 else 0 in
  if (a1 <? searchPos + width)%nat then searchPos + width
  else if (a1 <? searchPos + 1)%nat then searchPos + 1
  else a1.

(** The loop of [re.replaceAll] for the empty replacement text: the pieces
    of [src] between matches are copied to [buf] and the matches are not.
    [fuel] bounds the number of turns, of which there are no more than the
    length of [src] plus one. *)
Fixpoint replaceAll_loop (fuel : nat) (r : regex) (src : list ascii)
    (lastMatchEnd searchPos : nat) (buf : list ascii) : list ascii :=
  match fuel with
  | O => buf ++ drop lastMatchEnd src
  | S fuel' =>
      if (searchPos <=? length src)%nat then
        match doExecute r src searchPos with
        | None => buf ++ drop lastMatchEnd src
        | Some (a0, a1, _) =>
            replaceAll_loop fuel' r src a1 (advance src searchPos a1)
              (buf ++ slice src lastMatchEnd a0)
        end
      else buf ++ drop lastMatchEnd src
  end.

(** [re.ReplaceAllString(src, "")]. *)
Definition ReplaceAllString_empty (r : regex) (src : string) : string :=
  text (replaceAll_loop (String.length src + 2) r (chars src) 0 0 []).

End Regexp.

(** ** Go's [encoding/json], decoding only *)

Module Json.

#[local] Set Warnings "-register-all".

(** A JSON text as the decoder reads it, before it is stored anywhere.  A
    number keeps its literal; an object keeps its members in the order of
    the text, duplicates included. *)
Inductive value : Type :=
| Null
| Bool (b : bool)
| Number (literal : string)
| Str (s : string)
| Arr (elements : list value)
| Obj (members : list (string * value)).

Definition is_ws (c : ascii) : bool :=
  Ascii.eqb c " " || Ascii.eqb c "009" || Ascii.eqb c "010" || Ascii.eqb c "013".

Fixpoint skip_ws (s : list ascii) : list ascii :=
  match s with
  | c :: s' => if is_ws c then skip_ws s' else s
  | [] => []
  end.

Definition hex_val (c : ascii) : option N :=
  if in_range "0" "9" c then Some (N.of_nat (code c - code "0"))
  else if in_range "a" "f" c then Some (N.of_nat (code c - code "a" + 10))
  else if in_range "A" "F" c then Some (N.of_nat (code c - code "A" + 10))
  else None.

Definition hex4 (a b c d : ascii) : option N :=
  x ← hex_val a; y ← hex_val b; z ← hex_val c; w ← hex_val d;
  Some (((x * 16 + y) * 16 + z) * 16 + w)%N.

Definition byte (n : N) : ascii := ascii_of_N n.

(** UTF-8 encoding of a code point. *)
Definition utf8 (n : N) : list ascii :=
  (if n <? 128 then [byte n]
   else if n <? 2048 then [byte (192 + n / 64); byte (128 + n mod 64)]
   else if n <? 65536 then
     [byte (224 + n / 4096); byte (128 + (n / 64) mod 64); byte (128 + n mod 64)]
   else
     [byte (240 + n / 262144); byte (128 + (n / 4096) mod 64);
      byte (128 + (n / 64) mod 64); byte (128 + n mod 64)])%N.

Definition is_high_surrogate (n : N) : bool := (55296 <=? n)%N && (n <? 56320)%N.
Definition is_low_surrogate (n : N) : bool := (56320 <=? n)%N && (n <? 57344)%N.

Definition simple_escape (c : ascii) : option ascii :=
  if Ascii.eqb c dq then Some dq
  else if Ascii.eqb c "\" then Some "\"%char
  else if Ascii.eqb c "/" then Some "/"%char
  else if Ascii.eqb c "b" then Some "008"%char
  else if Ascii.eqb c "f" then Some "012"%char
  else if Ascii.eqb c "n" then Some "010"%char
  else if Ascii.eqb c "r" then Some "013"%char
  else if Ascii.eqb c "t" then Some "009"%char
  else None.

(** The bytes that follow the first byte of a UTF-8 sequence: how many
    there are and the range of the first of them, as in [unicode/utf8];
    [None] for a byte that starts no sequence. *)
Definition utf8_lead (c : ascii) : option (nat * N * N) :=
  let n := N_of_ascii c in
  (if (194 <=? n) && (n <=? 223) then Some (1%nat, 128, 191)
   else if n =? 224 then Some (2%nat, 160, 191)
   else if (225 <=? n) && (n <=? 236) then Some (2%nat, 128, 191)
   else if n =? 237 then Some (2%nat, 128, 159)
   else if (238 <=? n) && (n <=? 239) then Some (2%nat, 128, 191)
   else if n =? 240 then Some (3%nat, 144, 191)
   else if (241 <=? n) && (n <=? 243) then Some (3%nat, 128, 191)
   else if n =? 244 then Some (3%nat, 128, 143)
   else None)%N.

Definition byte_within (lo hi : N) (c : ascii) : bool :=
  ((lo <=? N_of_ascii c) && (N_of_ascii c <=? hi))%N.

(** The length of the UTF-8 sequence at the head of [c :: s], or 0 when
    there is none ([utf8.DecodeRune] then gives U+FFFD and a width of 1). *)
Definition utf8_width (c : ascii) (s : list ascii) : nat :=
  if (N_of_ascii c <? 128)%N then 1
  else
    match utf8_lead c, s with
    | Some (1, lo, hi), c1 :: _ => if byte_within lo hi c1 then 2 else 0
    | Some (2, lo, hi), c1 :: c2 :: _ =>
        if byte_within lo hi c1 && byte_within 128 191 c2 then 3 else 0
    | Some (3, lo, hi), c1 :: c2 :: c3 :: _ =>
        if byte_within lo hi c1 && byte_within 128 191 c2 && byte_within 128 191 c3
        then 4 else 0
    | _, _ => 0
    end.

(** The text of a string after its opening quote, up to the closing one.
    A raw control character ends the decoding with an error; a surrogate
    half without its other half decodes to U+FFFD, and so does every byte
    that is not part of a UTF-8 sequence. *)
Fixpoint parse_string (s : list ascii) : option (list ascii * list ascii) :=
  match s with
  | [] => None
  | c :: s' =>
      if Ascii.eqb c dq then Some ([], s')
      else if (code c <? 32)%nat then None
      else if Ascii.eqb c "\" then
        match s' with
        | "u"%char :: h1 :: h2 :: h3 :: h4 :: s'' =>
            n ← hex4 h1 h2 h3 h4;
            if is_high_surrogate n then
              match s'' with
              | "\"%char :: "u"%char :: l1 :: l2 :: l3 :: l4 :: s3 =>
                  match hex4 l1 l2 l3 l4 with
                  | Some m =>
                      if is_low_surrogate m then
                        '(r, rest) ← parse_string s3;
                        Some (utf8 (65536 + (n - 55296) * 1024 + (m - 56320))%N ++ r, rest)
                      else '(r, rest) ← parse_string s''; Some (utf8 65533%N ++ r, rest)
                  | None => None
                  end
              | _ => '(r, rest) ← parse_string s''; Some (utf8 65533%N ++ r, rest)
              end
            else if is_low_surrogate n then
              '(r, rest) ← parse_string s''; Some (utf8 65533%N ++ r, rest)
            else '(r, rest) ← parse_string s''; Some (utf8 n ++ r, rest)
        | e :: s'' =>
            x ← simple_escape e;
            '(r, rest) ← parse_string s''; Some (x :: r, rest)
        | [] => None
        end
      else
        match utf8_width c s', s' with
        | 2, c1 :: s1 => '(r, rest) ← parse_string s1; Some (c :: c1 :: r, rest)
        | 3, c1 :: c2 :: s2 =>
            '(r, rest) ← parse_string s2; Some (c :: c1 :: c2 :: r, rest)
        | 4, c1 :: c2 :: c3 :: s3 =>
            '(r, rest) ← parse_string s3; Some (c :: c1 :: c2 :: c3 :: r, rest)
        | 1, _ => '(r, rest) ← parse_string s'; Some (c :: r, rest)
        | _, _ => '(r, rest) ← parse_string s'; Some (utf8 65533%N ++ r, rest)
        end
  end.

Fixpoint span_digits (s : list ascii) : list ascii * list ascii :=
  match s with
  | c :: s' =>
      if in_range "0" "9" c then let '(d, r) := span_digits s' in (c :: d, r)
      else ([], s)
  | [] => ([], [])
  end.

(** A number: an optional minus sign, an integer part without a leading
    zero, an optional fraction and an optional exponent. *)
Definition parse_number (s : list ascii) : option (list ascii * list ascii) :=
  let '(sign, s1) :=
    match s with "-"%char :: t => (["-"%char], t) | _ => ([], s) end in
  '(int, s2) ←
    match s1 with
    | "0"%char :: t => Some (["0"%char], t)
    | c :: _ => if in_range "1" "9" c then Some (span_digits s1) else None
    | [] => None
    end;
  '(frac, s3) ←
    match s2 with
    | "."%char :: t =>
        match span_digits t with
        | ([], _) => None
        | (d, r) => Some ("."%char :: d, r)
        end
    | _ => Some ([], s2)
    end;
  '(exp, s4) ←
    match s3 with
    | e :: t =>
        if Ascii.eqb e "e" || Ascii.eqb e "E" then
          let '(sg, t1) :=
            match t with
            | "+"%char :: u => (["+"%char], u)
            | "-"%char :: u => (["-"%char], u)
            | _ => ([], t)
            end in
          match span_digits t1 with
          | ([], _) => None
          | (d, r) => Some (e :: sg ++ d, r)
          end
        else Some ([], s3)
    | [] => Some ([], s3)
    end;
  Some (sign ++ int ++ frac ++ exp, s4).

(** Objects and arrays are nested at most this deep (Go 1.15 and later);
    a text that goes deeper is refused. *)
Definition maxNestingDepth : N := 10000.

(** One value, with the white space before it; [depth] counts the objects
    and arrays that are open around it. *)
Fixpoint parse_value (fuel : nat) (depth : N) (s : list ascii)
    : option (value * list ascii) :=
  match fuel with
  | O => None
  | S fuel' =>
      match skip_ws s with
      | "{"%char :: s1 =>
          if (maxNestingDepth <=? depth)%N then None
          else
            match skip_ws s1 with
            | "}"%char :: r => Some (Obj [], r)
            | s2 => '(ms, r) ← parse_members fuel' (depth + 1)%N s2; Some (Obj ms, r)
            end
      | "["%char :: s1 =>
          if (maxNestingDepth <=? depth)%N then None
          else
            match skip_ws s1 with
            | "]"%char :: r => Some (Arr [], r)
            | s2 => '(vs, r) ← parse_elements fuel' (depth + 1)%N s2; Some (Arr vs, r)
            end
      | "t"%char :: "r"%char :: "u"%char :: "e"%char :: r => Some (Bool true, r)
      | "f"%char :: "a"%char :: "l"%char :: "s"%char :: "e"%char :: r => Some (Bool false, r)
      | "n"%char :: "u"%char :: "l"%char :: "l"%char :: r => Some (Null, r)
      | c :: s1 =>
          if Ascii.eqb c dq then '(str, r) ← parse_string s1; Some (Str (text str), r)
          else '(lit, r) ← parse_number (c :: s1); Some (Number (text lit), r)
      | [] => None
      end
  end
with parse_members (fuel : nat) (depth : N) (s : list ascii)
    : option (list (string * value) * list ascii) :=
  match fuel with
  | O => None
  | S fuel' =>
      match skip_ws s with
      | c :: s1 =>
          if Ascii.eqb c dq then
            '(k, s2) ← parse_string s1;
            match skip_ws s2 with
            | ":"%char :: s3 =>
                '(v, s4) ← parse_value fuel' depth s3;
                match skip_ws s4 with
                | ","%char :: s5 =>
                    '(ms, r) ← parse_members fuel' depth s5; Some ((text k, v) :: ms, r)
                | "}"%char :: r => Some ([(text k, v)], r)
                | _ => None
                end
            | _ => None
            end
          else None
      | [] => None
      end
  end
with parse_elements (fuel : nat) (depth : N) (s : list ascii)
    : option (list value * list ascii) :=
  match fuel with
  | O => None
  | S fuel' =>
      '(v, s1) ← parse_value fuel' depth s;
      match skip_ws s1 with
      | ","%char :: s2 => '(vs, r) ← parse_elements fuel' depth s2; Some (v :: vs, r)
      | "]"%char :: r => Some ([v], r)
      | _ => None
      end
  end.

(** A whole text: one value between optional white space; [None] is a
    syntax error. *)
Definition parse (s : string) : option value :=
  match parse_value (S (String.length s)) 0 (chars s) with
  | Some (v, r) => match skip_ws r with [] => Some v | _ => None end
  | None => None
  end.

(** *** Numbers read into an [interface{}]

    Such a number is converted with [strconv.ParseFloat(literal, 64)],
    which reports a range error when the value rounds to an infinity: when
    it is, in absolute value, at least the largest float64 plus half the
    distance to the next power of two. *)

Definition digit (c : ascii) : Z := Z.of_nat (code c - code "0").

Definition digits_value (ds : list ascii) : Z :=
  foldl (fun n c => 10 * n + digit c)%Z 0%Z ds.

(** The exponent as [strconv] reads it: it stops growing at 10000. *)
Definition exponent (ds : list ascii) : Z :=
  foldl (fun e c => if (e <? 10000)%Z then 10 * e + digit c else e)%Z 0%Z ds.

Definition float64_limit : Z := (2 ^ 1024 - 2 ^ 970)%Z.

Definition overflows_float64 (literal : list ascii) : bool :=
  let unsigned := match literal with "-"%char :: t => t | _ => literal end in
  let '(int, s1) := span_digits unsigned in
  let '(frac, s2) :=
    match s1 with "."%char :: t => span_digits t | _ => ([], s1) end in
  let e :=
    match s2 with
    | _ :: "-"%char :: t => (- exponent t)%Z
    | _ :: "+"%char :: t => exponent t
    | _ :: t => exponent t
    | [] => 0%Z
    end in
  let shift := (e - Z.of_nat (length frac))%Z in
  let mantissa := digits_value (int ++ frac) in
  (* the value is [mantissa * 10 ^ shift]; the first three cases are
     decided without the power *)
  (if mantissa =? 0 then false
   else if 310 <? shift then true
   else if shift + Z.of_nat (length (int ++ frac)) <? 0 then false
   else float64_limit * 10 ^ Z.max 0 (- shift) <=? mantissa * 10 ^ Z.max 0 shift)%Z.

(** What the decoder stores for a value read into an [interface{}]: a
    number out of range is an error that the decoder keeps for the end while
    it goes on, and the value is left nil. *)
Fixpoint stored (v : value) : value :=
  match v with
  | Number literal => if overflows_float64 (chars literal) then Null else v
  | Arr vs => Arr (map stored vs)
  | Obj ms => Obj (map (fun kv => let '(k, x) := kv in (k, stored x)) ms)
  | _ => v
  end.

(** The value holds a number out of range. *)
Fixpoint out_of_range (v : value) : bool :=
  match v with
  | Number literal => overflows_float64 (chars literal)
  | Arr vs => existsb out_of_range vs
  | Obj ms => existsb (fun kv => let '(_, x) := kv in out_of_range x) ms
  | _ => false
  end.

End Json.

(** ** The entry *)

(** [SystemdJournalEntry].  [int64] and [int32] are [Z] within their
    ranges. *)
Record SystemdJournalEntry : Type := {
  Cursor : string;
  Realtime_timestamp : Z;
  Monotonic_timestamp : string;
  Boot_id : string;
  Transport : string;
  Priority : Z;
  Syslog_facility : string;
  Syslog_identifier : string;
  Message : string;
  Pid : string;
  Uid : string;
  Gid : string;
  Comm : string;
  Exe : string;
  Cmdline : string;
  Systemd_cgroup : string;
  Systemd_session : string;
  Systemd_owner_uid : string;
  Systemd_unit : string;
  Source_realtime_timestamp : string;
  Machine_id : string;
  Hostname : string;
  Logger : string;
  EventId : string;
  Exception : string;
  Exception_type : string;
  Exception_Stacktrace : string;
  Inner_exception : string;
  Inner_exception_type : string;
  Inner_exception_Stacktrace : string;
  Status_code : string;
  Query_string : string;
  Member_id : string;
  Correlation_id : string;
  Request_path : string;
  Request_id : string;
  FullMessage : string
}.

(** The zero value, [SystemdJournalEntry{}]. *)
Definition zero_entry : SystemdJournalEntry := {|
  Cursor := "";
  Realtime_timestamp := 0%Z;
  Monotonic_timestamp := "";
  Boot_id := "";
  Transport := "";
  Priority := 0%Z;
  Syslog_facility := "";
  Syslog_identifier := "";
  Message := "";
  Pid := "";
  Uid := "";
  Gid := "";
  Comm := "";
  Exe := "";
  Cmdline := "";
  Systemd_cgroup := "";
  Systemd_session := "";
  Systemd_owner_uid := "";
  Systemd_unit := "";
  Source_realtime_timestamp := "";
  Machine_id := "";
  Hostname := "";
  Logger := "";
  EventId := "";
  Exception := "";
  Exception_type := "";
  Exception_Stacktrace := "";
  Inner_exception := "";
  Inner_exception_type := "";
  Inner_exception_Stacktrace := "";
  Status_code := "";
  Query_string := "";
  Member_id := "";
  Correlation_id := "";
  Request_path := "";
  Request_id := "";
  FullMessage := ""
|}.

(** The fields of type [string]. *)
Inductive string_field : Type :=
| F_Cursor
| F_Monotonic_timestamp
| F_Boot_id
| F_Transport
| F_Syslog_facility
| F_Syslog_identifier
| F_Message
| F_Pid
| F_Uid
| F_Gid
| F_Comm
| F_Exe
| F_Cmdline
| F_Systemd_cgroup
| F_Systemd_session
| F_Systemd_owner_uid
| F_Systemd_unit
| F_Source_realtime_timestamp
| F_Machine_id
| F_Hostname
| F_Logger
| F_EventId
| F_Exception
| F_Exception_type
| F_Exception_Stacktrace
| F_Inner_exception
| F_Inner_exception_type
| F_Inner_exception_Stacktrace
| F_Status_code
| F_Query_string
| F_Member_id
| F_Correlation_id
| F_Request_path
| F_Request_id
| F_FullMessage.

(** The fields of an integer type, decoded from a quoted number. *)
Inductive int_field : Type := F_Realtime_timestamp | F_Priority.

Inductive field : Type := FString (f : string_field) | FInt (f : int_field).

(** Assignment to one field of type [string]. *)
Definition set_string (f : string_field) (v : string) (e : SystemdJournalEntry)
    : SystemdJournalEntry := {|
  Cursor := match f with F_Cursor => v | _ => Cursor e end;
  Realtime_timestamp := Realtime_timestamp e;
  Monotonic_timestamp := match f with F_Monotonic_timestamp => v | _ => Monotonic_timestamp e end;
  Boot_id := match f with F_Boot_id => v | _ => Boot_id e end;
  Transport := match f with F_Transport => v | _ => Transport e end;
  Priority := Priority e;
  Syslog_facility := match f with F_Syslog_facility => v | _ => Syslog_facility e end;
  Syslog_identifier := match f with F_Syslog_identifier => v | _ => Syslog_identifier e end;
  Message := match f with F_Message => v | _ => Message e end;
  Pid := match f with F_Pid => v | _ => Pid e end;
  Uid := match f with F_Uid => v | _ => Uid e end;
  Gid := match f with F_Gid => v | _ => Gid e end;
  Comm := match f with F_Comm => v | _ => Comm e end;
  Exe := match f with F_Exe => v | _ => Exe e end;
  Cmdline := match f with F_Cmdline => v | _ => Cmdline e end;
  Systemd_cgroup := match f with F_Systemd_cgroup => v | _ => Systemd_cgroup e end;
  Systemd_session := match f with F_Systemd_session => v | _ => Systemd_session e end;
  Systemd_owner_uid := match f with F_Systemd_owner_uid => v | _ => Systemd_owner_uid e end;
  Systemd_unit := match f with F_Systemd_unit => v | _ => Systemd_unit e end;
  Source_realtime_timestamp := match f with F_Source_realtime_timestamp => v | _ => Source_realtime_timestamp e end;
  Machine_id := match f with F_Machine_id => v | _ => Machine_id e end;
  Hostname := match f with F_Hostname => v | _ => Hostname e end;
  Logger := match f with F_Logger => v | _ => Logger e end;
  EventId := match f with F_EventId => v | _ => EventId e end;
  Exception := match f with F_Exception => v | _ => Exception e end;
  Exception_type := match f with F_Exception_type => v | _ => Exception_type e end;
  Exception_Stacktrace := match f with F_Exception_Stacktrace => v | _ => Exception_Stacktrace e end;
  Inner_exception := match f with F_Inner_exception => v | _ => Inner_exception e end;
  Inner_exception_type := match f with F_Inner_exception_type => v | _ => Inner_exception_type e end;
  Inner_exception_Stacktrace := match f with F_Inner_exception_Stacktrace => v | _ => Inner_exception_Stacktrace e end;
  Status_code := match f with F_Status_code => v | _ => Status_code e end;
  Query_string := match f with F_Query_string => v | _ => Query_string e end;
  Member_id := match f with F_Member_id => v | _ => Member_id e end;
  Correlation_id := match f with F_Correlation_id => v | _ => Correlation_id e end;
  Request_path := match f with F_Request_path => v | _ => Request_path e end;
  Request_id := match f with F_Request_id => v | _ => Request_id e end;
  FullMessage := match f with F_FullMessage => v | _ => FullMessage e end
|}.

(** Assignment to one integer field. *)
Definition set_int (f : int_field) (v : Z) (e : SystemdJournalEntry)
    : SystemdJournalEntry := {|
  Cursor := Cursor e;
  Realtime_timestamp := match f with F_Realtime_timestamp => v | _ => Realtime_timestamp e end;
  Monotonic_timestamp := Monotonic_timestamp e;
  Boot_id := Boot_id e;
  Transport := Transport e;
  Priority := match f with F_Priority => v | _ => Priority e end;
  Syslog_facility := Syslog_facility e;
  Syslog_identifier := Syslog_identifier e;
  Message := Message e;
  Pid := Pid e;
  Uid := Uid e;
  Gid := Gid e;
  Comm := Comm e;
  Exe := Exe e;
  Cmdline := Cmdline e;
  Systemd_cgroup := Systemd_cgroup e;
  Systemd_session := Systemd_session e;
  Systemd_owner_uid := Systemd_owner_uid e;
  Systemd_unit := Systemd_unit e;
  Source_realtime_timestamp := Source_realtime_timestamp e;
  Machine_id := Machine_id e;
  Hostname := Hostname e;
  Logger := Logger e;
  EventId := EventId e;
  Exception := Exception e;
  Exception_type := Exception_type e;
  Exception_Stacktrace := Exception_Stacktrace e;
  Inner_exception := Inner_exception e;
  Inner_exception_type := Inner_exception_type e;
  Inner_exception_Stacktrace := Inner_exception_Stacktrace e;
  Status_code := Status_code e;
  Query_string := Query_string e;
  Member_id := Member_id e;
  Correlation_id := Correlation_id e;
  Request_path := Request_path e;
  Request_id := Request_id e;
  FullMessage := FullMessage e
|}.

Definition get_string (f : string_field) (e : SystemdJournalEntry) : string :=
  match f with
  | F_Cursor => Cursor e
  | F_Monotonic_timestamp => Monotonic_timestamp e
  | F_Boot_id => Boot_id e
  | F_Transport => Transport e
  | F_Syslog_facility => Syslog_facility e
  | F_Syslog_identifier => Syslog_identifier e
  | F_Message => Message e
  | F_Pid => Pid e
  | F_Uid => Uid e
  | F_Gid => Gid e
  | F_Comm => Comm e
  | F_Exe => Exe e
  | F_Cmdline => Cmdline e
  | F_Systemd_cgroup => Systemd_cgroup e
  | F_Systemd_session => Systemd_session e
  | F_Systemd_owner_uid => Systemd_owner_uid e
  | F_Systemd_unit => Systemd_unit e
  | F_Source_realtime_timestamp => Source_realtime_timestamp e
  | F_Machine_id => Machine_id e
  | F_Hostname => Hostname e
  | F_Logger => Logger e
  | F_EventId => EventId e
  | F_Exception => Exception e
  | F_Exception_type => Exception_type e
  | F_Exception_Stacktrace => Exception_Stacktrace e
  | F_Inner_exception => Inner_exception e
  | F_Inner_exception_type => Inner_exception_type e
  | F_Inner_exception_Stacktrace => Inner_exception_Stacktrace e
  | F_Status_code => Status_code e
  | F_Query_string => Query_string e
  | F_Member_id => Member_id e
  | F_Correlation_id => Correlation_id e
  | F_Request_path => Request_path e
  | F_Request_id => Request_id e
  | F_FullMessage => FullMessage e
  end.

Definition set_Message : string -> SystemdJournalEntry -> SystemdJournalEntry :=
  set_string F_Message.
Definition set_FullMessage : string -> SystemdJournalEntry -> SystemdJournalEntry :=
  set_string F_FullMessage.
Definition set_Priority : Z -> SystemdJournalEntry -> SystemdJournalEntry :=
  set_int F_Priority.

(** The key of each field in a journal line: its [json] tag, or its name
    for the untagged [FullMessage]. *)
Definition json_keys : list (string * field) := [
  ("__CURSOR", FString F_Cursor);
  ("__REALTIME_TIMESTAMP", FInt F_Realtime_timestamp);
  ("__MONOTONIC_TIMESTAMP", FString F_Monotonic_timestamp);
  ("_BOOT_ID", FString F_Boot_id);
  ("_TRANSPORT", FString F_Transport);
  ("PRIORITY", FInt F_Priority);
  ("SYSLOG_FACILITY", FString F_Syslog_facility);
  ("SYSLOG_IDENTIFIER", FString F_Syslog_identifier);
  ("MESSAGE", FString F_Message);
  ("_PID", FString F_Pid);
  ("_UID", FString F_Uid);
  ("_GID", FString F_Gid);
  ("_COMM", FString F_Comm);
  ("_EXE", FString F_Exe);
  ("_CMDLINE", FString F_Cmdline);
  ("_SYSTEMD_CGROUP", FString F_Systemd_cgroup);
  ("_SYSTEMD_SESSION", FString F_Systemd_session);
  ("_SYSTEMD_OWNER_UID", FString F_Systemd_owner_uid);
  ("_SYSTEMD_UNIT", FString F_Systemd_unit);
  ("_SOURCE_REALTIME_TIMESTAMP", FString F_Source_realtime_timestamp);
  ("_MACHINE_ID", FString F_Machine_id);
  ("_HOSTNAME", FString F_Hostname);
  ("LOGGER", FString F_Logger);
  ("EVENTID", FString F_EventId);
  ("EXCEPTION", FString F_Exception);
  ("EXCEPTION_TYPE", FString F_Exception_type);
  ("EXCEPTION_STACKTRACE", FString F_Exception_Stacktrace);
  ("INNEREXCEPTION", FString F_Inner_exception);
  ("INNEREXCEPTION_TYPE", FString F_Inner_exception_type);
  ("INNEREXCEPTION_STACKTRACE", FString F_Inner_exception_Stacktrace);
  ("STATUSCODE", FString F_Status_code);
  ("QUERYSTRING", FString F_Query_string);
  ("MEMBERID", FString F_Member_id);
  ("CORRELATIONID", FString F_Correlation_id);
  ("REQUESTPATH", FString F_Request_path);
  ("REQUESTID", FString F_Request_id);
  ("FullMessage", FString F_FullMessage)
].

(** ** Decoding a journal line *)

Definition upper (c : ascii) : ascii :=
  if in_range "a" "z" c then ascii_of_nat (code c - 32) else c.

Definition lower (c : ascii) : ascii :=
  if in_range "A" "Z" c then ascii_of_nat (code c + 32) else c.

(** [strings.ToLower], on ASCII letters: the groups named Priority capture
    nothing else. *)
Definition ToLower (s : string) : string := text (map lower (chars s)).

(** [bytes.EqualFold(name, key)] for a name of ASCII bytes, as the names
    of all fields are: equality under Unicode simple case folding.  Besides
    the letter in either case, the key may hold U+212A (the Kelvin sign) for
    a K and U+017F (the long s) for an S, in UTF-8. *)
Fixpoint fold_equal (name key : list ascii) : bool :=
  match name, key with
  | [], [] => true
  | c :: name', k :: key' =>
      if Ascii.eqb (upper c) (upper k) then fold_equal name' key'
      else
        match key' with
        | k1 :: key1 =>
            if Ascii.eqb (upper c) "S" && Ascii.eqb k "197" && Ascii.eqb k1 "191"
            then fold_equal name' key1
            else
              match key1 with
              | k2 :: key2 =>
                  if Ascii.eqb (upper c) "K" && Ascii.eqb k "226"
                     && Ascii.eqb k1 "132" && Ascii.eqb k2 "170"
                  then fold_equal name' key2
                  else false
              | [] => false
              end
        | [] => false
        end
  | _, _ => false
  end.

Definition equal_fold (name key : string) : bool := fold_equal (chars name) (chars key).

Fixpoint assoc {A : Type} (same : string -> string -> bool) (key : string)
    (l : list (string * A)) : option A :=
  match l with
  | [] => None
  | (k, v) :: l' => if same k key then Some v else assoc same key l'
  end.

(** The field a key of the line is stored in: the field whose key is the
    same, or else the first one that differs only by the case of letters. *)
Definition find_field (key : string) : option field :=
  match assoc String.eqb key json_keys with
  | Some f => Some f
  | None => assoc equal_fold key json_keys
  end.

Fixpoint decimal (acc : Z) (s : list ascii) : option Z :=
  match s with
  | [] => Some acc
  | c :: s' =>
      if Regexp.is_digit c then decimal (10 * acc + Z.of_nat (Regexp.digit_val c)) s'
      else None
  end.

(** The integer of [bits] bits in a quoted number: an optional minus sign
    and decimal digits, as [strconv.ParseInt] reads them; [None] when the
    text is not of that form or the value does not fit. *)
Definition signed_decimal (s : list ascii) : option Z :=
  match s with
  | "-"%char :: (_ :: _) as ds => Z.opp <$> decimal 0 ds
  | "-"%char :: [] | [] => None
  | ds => decimal 0 ds
  end.

Definition fits (bits : Z) (n : Z) : bool :=
  ((- 2 ^ (bits - 1) <=? n) && (n <? 2 ^ (bits - 1)))%Z.

Definition quoted_int (bits : Z) (s : string) : option Z :=
  n ← signed_decimal (chars s);
  if fits bits n then Some n else None.

Definition bits_of (f : int_field) : Z :=
  match f with F_Realtime_timestamp => 64 | F_Priority => 32 end.

(** One member of the line's object stored into the entry; [None] when the
    value has the wrong type for its field, which makes the decoding of the
    line fail.  A key that names no field is skipped, and [null] leaves the
    field as it is. *)
Definition store_member (key : string) (v : Json.value) (e : SystemdJournalEntry) : option SystemdJournalEntry :=
  match find_field key with
  | None => Some e
  | Some (FString f) =>
      match v with
      | Json.Str s => Some (set_string f s e)
      | Json.Null => Some e
      | _ => None
      end
  | Some (FInt f) =>
      match v with
      | Json.Str s =>
          if String.eqb s "null" then Some e
          else n ← quoted_int (bits_of f) s; Some (set_int f n e)
      | Json.Null => Some e
      | _ => None
      end
  end.

Fixpoint store_members (ms : list (string * Json.value)) (e : SystemdJournalEntry) : option SystemdJournalEntry :=
  match ms with
  | [] => Some e
  | (k, v) :: ms' => e' ← store_member k v e; store_members ms' e'
  end.

(** What [json.Unmarshal([]byte(line), &entry)] leaves in [entry], a pointer
    that starts at a fresh zero entry: an error, a nil pointer (for the
    line [null]) or the entry filled in. *)
Inductive decoded : Type :=
| DecodeError
| DecodedNil
| Decoded (e : SystemdJournalEntry).

Definition Unmarshal_entry (line : string) : decoded :=
  match Json.parse line with
  | Some (Json.Obj ms) =>
      match store_members ms zero_entry with
      | Some e => Decoded e
      | None => DecodeError
      end
  | Some Json.Null => DecodedNil
  | _ => DecodeError
  end.

(** [json.Unmarshal([]byte(s), &extra)] for a map that exists: whether the
    call returns no error, and the map as the call leaves it.  A text that
    is no JSON text, or is one and is neither an object nor [null], is an
    error that leaves the map as it was.  The members of an object are
    stored over the entries of the map, in their order; a number out of
    range among them is an error too, reported after all members are stored.
    [null] makes the map nil, which reads as the empty map. *)
Definition Unmarshal_map (s : string) (extra : gmap string Json.value)
    : bool * gmap string Json.value :=
  match Json.parse s with
  | Some (Json.Obj ms) =>
      (forallb (fun kv => negb (Json.out_of_range kv.2)) ms,
       foldl (fun m kv => <[kv.1 := Json.stored kv.2]> m) extra ms)
  | Some Json.Null => (true, ∅)
  | _ => (false, extra)
  end.

(** ** The tables *)

(** [regexp.MustCompile]; a pattern that does not compile would stop the
    program when it starts. *)
Definition MustCompile (pattern : string) : Regexp.regex :=
  default Regexp.EmptyMatch (Regexp.Compile pattern).

(** The patterns, as the program text gives them to the compiler (a Go
    string literal writes each backslash twice). *)
Definition messageReplace_patterns : list (string * string) := [
  ("*", "^20[0-9][0-9][/\-][01][0-9][/\-][0123][0-9] [0-2]?[0-9]:[0-5][0-9]:[0-5][0-9][,0-9]{0-3} ");
  ("nginx", "\[(?P<Priority>[a-z]+)\] ");
  ("java", "(?P<Priority>[A-Z]+): ");
  ("mysqld", "^[0-9]+ \[(?P<Priority>[A-Z][a-z]+)\] ");
  ("searchd", "^\[([A-Z][a-z]{2} ){2} [0-9]+ [0-2][0-9]:[0-5][0-9]:[0-5][0-9]\.[0-9]{3} 20[0-9][0-9]\] \[[ 0-9]+\] ");
  ("jenkins", "^[A-Z][a-z]{2} [01][0-9], 20[0-9][0-9] [0-2]?[0-9]:[0-5][0-9]:[0-5][0-9] [AP]M ");
  ("php-fpm", "^pool [a-z_0-9\[\]\-]+: ");
  ("syncthing", "^\[[0-9A-Z]{5}\] [0-2][0-9]:[0-5][0-9]:[0-5][0-9] (?P<Priority>INFO): ")
].

(** [messageReplace[key]]; [None] is the nil pointer of a missing key. *)
Definition messageReplace (key : string) : option Regexp.regex :=
  MustCompile <$> assoc String.eqb key messageReplace_patterns.

Definition priorities_table : list (string * Z) := [
  ("emergency", 0); ("emerg", 0); ("alert", 1); ("critical", 2); ("crit", 2);
  ("error", 3); ("err", 3); ("warning", 4); ("warn", 4); ("notice", 5);
  ("info", 6); ("debug", 7)
]%Z.

(** [priorities[word]]; a missing word reads as the zero value. *)
Definition priorities (word : string) : Z :=
  default 0%Z (assoc String.eqb word priorities_table).

(** ** Normalization *)

(** The loop over [re.SubexpNames()]: each group named Priority stores the
    severity of its text, [m[idx]]. *)
Fixpoint store_subpatterns (names : list string) (idx : nat) (m : list string)
    (this : SystemdJournalEntry) : SystemdJournalEntry :=
  match names with
  | [] => this
  | key :: names' =>
      let this' :=
        if String.eqb "Priority" key
        then set_Priority (priorities (ToLower (nth idx m ""))) this
        else this in
      store_subpatterns names' (S idx) m this'
  end.

(** The pattern of the entry: by syslog identifier, or else by command
    name. *)
Definition rule_of (this : SystemdJournalEntry) : option Regexp.regex :=
  match messageReplace (Syslog_identifier this) with
  | Some re => Some re
  | None => messageReplace (Comm this)
  end.

(** The first statement of [process]: the generic pattern applied.  The
    key is in the table; a nil pattern would panic. *)
Definition strip_timestamp (msg : string) : string :=
  match messageReplace "*" with
  | Some re => Regexp.ReplaceAllString_empty re msg
  | None => msg
  end.

(** [SystemdJournalEntry.process]. *)
Definition process (this : SystemdJournalEntry) : SystemdJournalEntry :=
  let this := set_Message (strip_timestamp (Message this)) this in
  match rule_of this with
  | None => this
  | Some re =>
      match Regexp.FindStringSubmatch re (Message this) with
      | None => this
      | Some m =>
          let this := store_subpatterns (Regexp.SubexpNames re) 0 m this in
          set_Message (Regexp.ReplaceAllString_empty re (Message this)) this
      end
  end.

(** [SystemdJournalEntry.isJsonMessage]. *)
Definition isJsonMessage (this : SystemdJournalEntry) : bool :=
  (64 <? String.length (Message this))%nat
  && match chars (Message this) with
     | c0 :: c1 :: _ => Ascii.eqb c0 "{" && Ascii.eqb c1 dq
     | _ => false
     end.

(** ** The envelope *)

(** [gelf.Message].  [TimeUnix] holds the microseconds of the entry: the
    envelope carries them divided twice by 1000 as a float64. *)
Record GelfMessage : Type := {
  Version : string;
  Host : string;
  Short : string;
  Full : string;
  TimeUnix : Z;
  Level : Z;
  Facility : string;
  Extra : gmap string Json.value
}.

(** A call returns or panics. *)
Inductive outcome (A : Type) : Type :=
| Returns (a : A)
| Panics.
Arguments Returns {A} a.
Arguments Panics {A}.

(** [strings.Index(s, sep)] for a separator of one byte; -1 when absent. *)
Fixpoint Index (s : list ascii) (sep : ascii) : Z :=
  match s with
  | [] => -1
  | c :: s' =>
      if Ascii.eqb c sep then 0
      else match Index s' sep with
           | (-1)%Z => -1
           | i => i + 1
           end
  end%Z.

(** [strings.Split(s, sep)[0]] for a separator of one byte. *)
Fixpoint Split_first (s : list ascii) (sep : ascii) : list ascii :=
  match s with
  | [] => []
  | c :: s' => if Ascii.eqb c sep then [] else c :: Split_first s' sep
  end.

(** The map [extra] as [toGelf] first builds it. *)
Definition extra_of (this : SystemdJournalEntry) : gmap string Json.value :=
  list_to_map [
    ("Boot_id", Json.Str (Boot_id this));
    ("Pid", Json.Str (Pid this));
    ("Uid", Json.Str (Uid this));
    ("Logger", Json.Str (Logger this));
    ("EventId", Json.Str (EventId this));
    ("Exception", Json.Str (Exception this));
    ("Exception_Type", Json.Str (Exception_type this));
    ("Exception_Stacktrace", Json.Str (Exception_Stacktrace this));
    ("Inner_Exception", Json.Str (Inner_exception this));
    ("Inner_Exception_Type", Json.Str (Inner_exception_type this));
    ("Inner_Exception_Stacktrace", Json.Str (Inner_exception_Stacktrace this));
    ("Request_Id", Json.Str (Request_id this));
    ("Request_Path", Json.Str (Request_path this));
    ("Status_Code", Json.Str (Status_code this));
    ("Query_String", Json.Str (Query_string this));
    ("Correlation_Id", Json.Str (Correlation_id this));
    ("Member_Id", Json.Str (Member_id this))
  ].

(** [if v, ok := extra[key]; ok { field = v.(string); delete(extra, key) }]:
    the type assertion panics on a value that is not a string. *)
Definition take_string (key : string) (f : string_field)
    (st : SystemdJournalEntry * gmap string Json.value)
    : outcome (SystemdJournalEntry * gmap string Json.value) :=
  let '(this, extra) := st in
  match extra !! key with
  | None => Returns (this, extra)
  | Some (Json.Str v) => Returns (set_string f v this, delete key extra)
  | Some _ => Panics
  end.

(** The middle part of [toGelf], which rewrites the entry and the map. *)
Definition expand_message (this : SystemdJournalEntry) (extra : gmap string Json.value)
    : outcome (SystemdJournalEntry * gmap string Json.value) :=
  if isJsonMessage this then
    match Unmarshal_map (Message this) extra with
    | (true, extra) =>
        match take_string "Message" F_Message (this, extra) with
        | Returns st => take_string "FullMessage" F_FullMessage st
        | Panics => Panics
        end
    | (false, extra) => Returns (this, extra)
    end
  else if negb (Index (chars (Message this)) lf =? -1)%Z then
    let this' := set_FullMessage (Message this) this in
    Returns (set_Message (text (Split_first (chars (Message this')) lf)) this', extra)
  else Returns (this, extra).

(** [SystemdJournalEntry.toGelf]: the entry as the call leaves it, and the
    envelope. *)
Definition toGelf (this : SystemdJournalEntry) : outcome (SystemdJournalEntry * GelfMessage) :=
  let extra := extra_of this in
  let facility := Syslog_identifier this in
  let facility := if String.eqb "" facility then Comm this else facility in
  match expand_message this extra with
  | Panics => Panics
  | Returns (this, extra) =>
      Returns (this, {|
        Version := "1.1";
        Host := Hostname this;
        Short := Message this;
        Full := FullMessage this;
        TimeUnix := Realtime_timestamp this;
        Level := Priority this;
        Facility := facility;
        Extra := extra
      |})
  end.

(** ** Delivery *)

(** Durations are in nanoseconds, as [time.Duration]. *)
Definition Millisecond : Z := 1000000.
Definition Second : Z := 1000 * Millisecond.

Definition WRITE_INTERVAL : Z := 50 * Millisecond.
Definition SAMESOURCE_TIME_DIFFERENCE : Z := 100 * 1000.
Definition SLEEP_AFTER_ERROR : Z := 15 * Second.

(** What the program does to the world outside. *)
Inductive event : Type :=
| Wrote (m : GelfMessage)
| WriteFailed (m : GelfMessage) (err : string)
| Stderr (line : string)
| Slept (d : Z).

(** The world: how many times the writer has been called, and the events
    so far, the latest first. *)
Record World : Type := { calls : nat; trace : list event }.

Definition emit (ev : event) (w : World) : World :=
  {| calls := calls w; trace := ev :: trace w |}.

Section Delivery.
(** The transport: the error of the call of a given rank, if any. *)
Variable transport : nat -> GelfMessage -> option string.

(** [writer.WriteMessage(message)]. *)
Definition WriteMessage (m : GelfMessage) (w : World) : option string * World :=
  match transport (calls w) m with
  | None => (None, {| calls := S (calls w); trace := Wrote m :: trace w |})
  | Some err => (Some err, {| calls := S (calls w); trace := WriteFailed m err :: trace w |})
  end.

(** [SystemdJournalEntry.send]; the recursion of the program has no
    bound, [fuel] bounds the number of calls, and [None] is a run that
    needs more. *)
Fixpoint send (fuel : nat) (this : SystemdJournalEntry) (w : World)
    : option (outcome (SystemdJournalEntry * World)) :=
  match fuel with
  | O => None
  | S fuel' =>
      match toGelf this with
      | Panics => Some Panics
      | Returns (this, message) =>
          match WriteMessage message w with
          | (None, w) => Some (Returns (this, w))
          | (Some err, w) =>
              let w := emit (Stderr ("Processing paused because of: " +:+ err)) w in
              let w := emit (Slept SLEEP_AFTER_ERROR) w in
              send fuel' this w
          end
      end
  end.

(** [p.send()] on a pointer: the nil pointer is dereferenced in [toGelf]. *)
Definition send_ptr (fuel : nat) (p : option SystemdJournalEntry) (w : World)
    : option (outcome (SystemdJournalEntry * World)) :=
  match p with
  | None => Some Panics
  | Some this => send fuel this w
  end.
End Delivery.

(** ** The two tasks of [main] *)

Definition is_int64 (n : Z) : bool := ((- 2 ^ 63 <=? n) && (n <? 2 ^ 63))%Z.

(** The value of an [int64] expression: the integer, wrapped around. *)
Definition wrap64 (n : Z) : Z := ((n + 2 ^ 63) mod 2 ^ 64 - 2 ^ 63)%Z.

(** The test of [writePendingEntry] on the occupant of the slot, for the
    reading [now] of the clock in nanoseconds: the division truncates
    towards zero and the difference is an [int64]. *)
Definition stale (now : Z) (occupant : SystemdJournalEntry) : bool :=
  (SAMESOURCE_TIME_DIFFERENCE
   <? wrap64 (Z.quot now 1000 - Realtime_timestamp occupant))%Z.

Inductive task : Type := Main | Flusher.

(** Where the main task is: at [s.Scan()], at [pending.Lock()] with the
    entry just processed, at the test of the slot with the lock held, inside
    the [send] of the occupant (line 246), at [pending.Unlock()], at its
    sleep, at the test of [s.Err()], at the last statement, inside the [send]
    of that last statement (line 263), or past the end. *)
Inductive main_pc : Type :=
| M_Scan
| M_Lock (entry : SystemdJournalEntry)
| M_Locked (entry : SystemdJournalEntry)
| M_Send (occupant : SystemdJournalEntry) (entry : SystemdJournalEntry)
| M_Unlock
| M_Sleep
| M_Err
| M_Final
| M_FinalSend (occupant : SystemdJournalEntry)
| M_Done.

(** Where [writePendingEntry] is: at its sleep, at the test of the slot, at
    [pending.Lock()], between the lock and the unlock, at
    [pending.Unlock()] with its local [entry], or inside [entry.send()]. *)
Inductive flush_pc : Type :=
| F_Sleep
| F_Test
| F_Lock
| F_Locked
| F_Unlock (entry : option SystemdJournalEntry)
| F_Send (entry : option SystemdJournalEntry).

Inductive status : Type :=
| Running
| Exited (code : Z)
| Panicked.

(** The state of the program: the slot [pending.entry], the holder of the
    lock of [pending], both tasks, the lines that [journalctl] has yet to
    give, the world and whether the process still runs. *)
Record State : Type := St {
  pending_entry : option SystemdJournalEntry;
  pending_lock : option task;
  main_at : main_pc;
  flusher_at : flush_pc;
  stdout : list string;
  world : World;
  state : status
}.

Section Program.
Variable transport : nat -> GelfMessage -> option string.
(** The error of the scanner once the lines are read, if any. *)
Variable scan_error : option string.

Definition initial (lines : list string) : State :=
  St None None M_Scan F_Sleep lines {| calls := 0; trace := [] |} Running.

(** One step of the main task.  A [send] is entered in one step and left
    in another, and the other task may move in between. *)
Inductive main_step : State -> State -> Prop :=
| scan_skip slot lock f line lines w :
    Unmarshal_entry line = DecodeError ->
    main_step (St slot lock M_Scan f (line :: lines) w Running)
              (St slot lock M_Scan f lines w Running)
| scan_nil slot lock f line lines w :
    Unmarshal_entry line = DecodedNil ->
    main_step (St slot lock M_Scan f (line :: lines) w Running)
              (St slot lock M_Scan f lines w Panicked)
| scan_entry slot lock f line lines w entry :
    Unmarshal_entry line = Decoded entry ->
    main_step (St slot lock M_Scan f (line :: lines) w Running)
              (St slot lock (M_Lock (process entry)) f lines w Running)
| scan_end slot lock f w :
    main_step (St slot lock M_Scan f [] w Running)
              (St slot lock M_Err f [] w Running)
| scanner_failed slot lock f lines w err :
    scan_error = Some err ->
    main_step (St slot lock M_Err f lines w Running)
              (St slot lock M_Done f lines
                  (emit (Stderr ("Error from Scanner: " +:+ err)) w) (Exited 1))
| scanner_ok slot lock f lines w :
    scan_error = None ->
    main_step (St slot lock M_Err f lines w Running)
              (St slot lock M_Final f lines w Running)
| main_lock slot f lines w entry :
    main_step (St slot None (M_Lock entry) f lines w Running)
              (St slot (Some Main) (M_Locked entry) f lines w Running)
| place lock f lines w entry :
    main_step (St None lock (M_Locked entry) f lines w Running)
              (St (Some entry) lock M_Unlock f lines w Running)
| evict_call occupant lock f lines w entry :
    main_step (St (Some occupant) lock (M_Locked entry) f lines w Running)
              (St (Some occupant) lock (M_Send occupant entry) f lines w Running)
| evict_return slot lock f lines w entry occupant fuel occupant' w' :
    send transport fuel occupant w = Some (Returns (occupant', w')) ->
    main_step (St slot lock (M_Send occupant entry) f lines w Running)
              (St (Some entry) lock M_Unlock f lines w' Running)
| evict_panic slot lock f lines w entry occupant fuel :
    send transport fuel occupant w = Some Panics ->
    main_step (St slot lock (M_Send occupant entry) f lines w Running)
              (St slot lock (M_Send occupant entry) f lines w Panicked)
| main_unlock slot lock f lines w :
    main_step (St slot lock M_Unlock f lines w Running)
              (St slot None M_Sleep f lines w Running)
| main_sleep slot lock f lines w :
    main_step (St slot lock M_Sleep f lines w Running)
              (St slot lock M_Scan f lines (emit (Slept (1 * Millisecond)) w) Running)
| final_nil lock f lines w :
    main_step (St None lock M_Final f lines w Running)
              (St None lock M_Final f lines w Panicked)
| final_call occupant lock f lines w :
    main_step (St (Some occupant) lock M_Final f lines w Running)
              (St (Some occupant) lock (M_FinalSend occupant) f lines w Running)
| final_return slot lock f lines w occupant fuel occupant' w' :
    send transport fuel occupant w = Some (Returns (occupant', w')) ->
    main_step (St slot lock (M_FinalSend occupant) f lines w Running)
              (St slot lock M_Done f lines w' (Exited 0))
| final_panic slot lock f lines w occupant fuel :
    send transport fuel occupant w = Some Panics ->
    main_step (St slot lock (M_FinalSend occupant) f lines w Running)
              (St slot lock (M_FinalSend occupant) f lines w Panicked).

(** One step of [writePendingEntry]; [now] is what [time.Now().UnixNano()]
    gives, an [int64], when the slot is tested, without the lock. *)
Inductive flusher_step : State -> State -> Prop :=
| flusher_wakes slot lock m lines w :
    flusher_step (St slot lock m F_Sleep lines w Running)
                 (St slot lock m F_Test lines (emit (Slept WRITE_INTERVAL) w) Running)
| test_stale occupant lock m lines w now :
    is_int64 now = true ->
    stale now occupant = true ->
    flusher_step (St (Some occupant) lock m F_Test lines w Running)
                 (St (Some occupant) lock m F_Lock lines w Running)
| test_fresh occupant lock m lines w now :
    is_int64 now = true ->
    stale now occupant = false ->
    flusher_step (St (Some occupant) lock m F_Test lines w Running)
                 (St (Some occupant) lock m F_Sleep lines w Running)
| test_empty lock m lines w :
    flusher_step (St None lock m F_Test lines w Running)
                 (St None lock m F_Sleep lines w Running)
| flusher_lock slot m lines w :
    flusher_step (St slot None m F_Lock lines w Running)
                 (St slot (Some Flusher) m F_Locked lines w Running)
| drain slot lock m lines w :
    flusher_step (St slot lock m F_Locked lines w Running)
                 (St None lock m (F_Unlock slot) lines w Running)
| flusher_unlock slot lock m lines w entry :
    flusher_step (St slot lock m (F_Unlock entry) lines w Running)
                 (St slot None m (F_Send entry) lines w Running)
| flush_return slot lock m lines w entry fuel entry' w' :
    send transport fuel entry w = Some (Returns (entry', w')) ->
    flusher_step (St slot lock m (F_Send (Some entry)) lines w Running)
                 (St slot lock m F_Sleep lines w' Running)
| flush_panic slot lock m lines w entry fuel :
    send_ptr transport fuel entry w = Some Panics ->
    flusher_step (St slot lock m (F_Send entry) lines w Running)
                 (St slot lock m (F_Send entry) lines w Panicked).

Definition step (s s' : State) : Prop := main_step s s' ∨ flusher_step s s'.

(** The states a run of the program goes through. *)
Inductive reachable (lines : list string) : State -> Prop :=
| reach_initial : reachable lines (initial lines)
| reach_step s s' : reachable lines s -> step s s' -> reachable lines s'.

(** The task is inside a call of [send]. *)
Definition delivering (t : task) (s : State) : Prop :=
  match t with
  | Main =>
      match main_at s with
      | M_Send _ _ | M_FinalSend _ => True
      | _ => False
      end
  | Flusher =>
      match flusher_at s with
      | F_Send _ => True
      | _ => False
      end
  end.

Definition holds_lock (t : task) (s : State) : Prop := pending_lock s = Some t.
End Program.

(** ** The start of [main] *)

(** How the program starts: it ends at once with a line on the error stream
    and a status, or it goes on with a writer for the server and the command
    it runs. *)
Inductive started : Type :=
| Fatal (stderr_line : string) (code : Z)
| Started (server : string) (command : list string).

Section Startup.
(** [gelf.NewWriter(addr)]: the error of the connection, if any. *)
Variable NewWriter : string -> option string.

(** The statements of [main] before the two tasks start; [Args] is
    [os.Args], the name of the program first. *)
Definition startup (Args : list string) : started :=
  if length Args <? 3 then
    Fatal "Pass server:12201 as first argument and append journalctl parameters to use" 1
  else
    match NewWriter (nth 1 Args "") with
    | Some err => Fatal ("While connecting to Graylog server: " +:+ err) 1
    | None =>
        let journalArgs := ["--all"; "--output=json"] in
        let journalArgs := journalArgs ++ drop 2 Args in
        Started (nth 1 Args "") ("journalctl" :: journalArgs)
    end.
End Startup.

(** * Notions used in the statements *)

(** A matcher only moves forward in its input: when it succeeds, its
    continuation has been called [n] bytes further, [n] being [lo] or more. *)
Definition advances {A : Type} (lo : nat)
    (step : nat -> list ascii -> Regexp.caps -> @Regexp.cont A -> option A) : Prop :=
  ∀ pos s c k x, step pos s c k = Some x ->
    ∃ n c', lo ≤ n ∧ n ≤ length s ∧ k (pos + n) (drop n s) c' = Some x.

(** The length of the shortest text a pattern can match. *)
Fixpoint min_len (r : Regexp.regex) : nat :=
  match r with
  | Regexp.EmptyMatch | Regexp.BeginText => 0
  | Regexp.Literal _ | Regexp.CharClass _ => 1
  | Regexp.Concat r1 r2 => min_len r1 + min_len r2
  | Regexp.Star _ | Regexp.Quest _ => 0
  | Regexp.Plus r1 => min_len r1
  | Regexp.Repeat lo _ r1 => lo * min_len r1
  | Regexp.Capture _ _ r1 => min_len r1
  end.

(** A pattern that starts with [^]. *)
Definition anchored (r : Regexp.regex) : bool :=
  match r with
  | Regexp.BeginText | Regexp.Concat Regexp.BeginText _ => true
  | _ => false
  end.

(** The number of the last group of the given name, counting from [idx]. *)
Fixpoint last_named (name : string) (names : list string) (idx : nat)
    (seen : option nat) : option nat :=
  match names with
  | [] => seen
  | key :: names' =>
      last_named name names' (S idx) (if String.eqb name key then Some idx else seen)
  end.

(** The group of a pattern that is named Priority, the last one if there
    are several. *)
Definition priority_group (re : Regexp.regex) : option nat :=
  last_named "Priority" (Regexp.SubexpNames re) 0 None.

(** The severity of the text of group [i] of a match. *)
Definition severity_of (m : list string) (i : nat) : Z :=
  priorities (ToLower (nth i m "")).

(** A text between double quotes. *)
Definition quoted (s : string) : string := String dq (s +:+ String dq "").

(** The range of an [int32]. *)
Definition int32 (n : Z) : Prop := (- 2 ^ 31 <= n < 2 ^ 31)%Z.

(** One of the eight severities. *)
Definition is_severity (n : Z) : Prop := (0 <= n <= 7)%Z.

(** ** Inputs of the examples *)

(** The line of the nginx example: MESSAGE, PRIORITY and SYSLOG_IDENTIFIER. *)
Definition nginx_line : string :=
  "{" +:+ quoted "MESSAGE" +:+ ":" +:+ quoted "2024-01-02 03:04:05 [error] disk full"
  +:+ "," +:+ quoted "PRIORITY" +:+ ":" +:+ quoted "6"
  +:+ "," +:+ quoted "SYSLOG_IDENTIFIER" +:+ ":" +:+ quoted "nginx" +:+ "}".

Definition nginx_entry : SystemdJournalEntry :=
  set_string F_Syslog_identifier "nginx"
    (set_Priority 6 (set_Message "2024-01-02 03:04:05 [error] disk full" zero_entry)).

(** A date and a time of the form the generic pattern is meant for. *)
Definition sample_timestamp : string := "2024-01-02 03:04:05 ".

(** A line whose PRIORITY is not a severity. *)
Definition priority_99_line : string :=
  "{" +:+ quoted "MESSAGE" +:+ ":" +:+ quoted "hello"
  +:+ "," +:+ quoted "PRIORITY" +:+ ":" +:+ quoted "99" +:+ "}".

Definition priority_99_entry : SystemdJournalEntry :=
  set_Priority 99 (set_Message "hello" zero_entry).

(** An nginx entry whose message holds the pattern twice. *)
Definition nginx_twice : SystemdJournalEntry :=
  set_string F_Syslog_identifier "nginx"
    (set_Message "[error] upstream timed out [warn] retrying" zero_entry).

(** The text with the bytes from [a0] to [a1] left out. *)
Definition without_span (s : string) (a0 a1 : nat) : string :=
  text (take a0 (chars s) ++ drop a1 (chars s)).

(** The successive matches of a pattern in a text from [pos] on: each is
    the leftmost match that starts where the one before ends, or later, and
    after the last of them there is no match. *)
Inductive successive_matches (re : Regexp.regex) (src : list ascii)
    : nat -> list (nat * nat) -> Prop :=
| no_more pos :
    Regexp.doExecute re src pos = None -> successive_matches re src pos []
| one_more pos a0 a1 c spans :
    Regexp.doExecute re src pos = Some (a0, a1, c) ->
    successive_matches re src a1 spans ->
    successive_matches re src pos ((a0, a1) :: spans).

(** The text from [pos] on with the spans left out, the spans being in the
    order of the text. *)
Fixpoint without_spans (src : list ascii) (pos : nat) (spans : list (nat * nat))
    : list ascii :=
  match spans with
  | [] => drop pos src
  | (a0, a1) :: spans' => slice src pos a0 ++ without_spans src a1 spans'
  end.

(** A mysqld entry, by command name. *)
Definition mysqld_entry : SystemdJournalEntry :=
  set_string F_Comm "mysqld"
    (set_Priority 6 (set_Message "12345 [Warning] table is full" zero_entry)).


(** The value of a key in the members of an object: the last one counts. *)
Fixpoint member (key : string) (ms : list (string * Json.value)) : option Json.value :=
  match ms with
  | [] => None
  | (k, v) :: ms' =>
      match member key ms' with
      | Some x => Some x
      | None => if String.eqb k key then Some v else None
      end
  end.

(** The text of an object with the members Message, FullMessage and
    Logger, 88 bytes long. *)
Definition object_text : string :=
  "{" +:+ quoted "Message" +:+ ":" +:+ quoted "short"
  +:+ "," +:+ quoted "FullMessage" +:+ ":" +:+ quoted "full text"
  +:+ "," +:+ quoted "Logger" +:+ ":" +:+ quoted "app.main.worker.0123456789.0123" +:+ "}".


(** An entry whose message is that object, and one whose message is a
    space and then that object. *)
Definition object_entry : SystemdJournalEntry := set_Message object_text zero_entry.


(** An entry whose message is an object written on two lines. *)
Definition two_line_object_entry : SystemdJournalEntry :=
  set_Message
    ("{" +:+ quoted "request" +:+ ":" +:+ String lf
       (quoted "GET /index.html from 192.0.2.1 took 0.123 seconds to serve" +:+ "}"))
    zero_entry.

(** An entry whose message has two lines and is no object. *)
Definition two_line_entry : SystemdJournalEntry :=
  set_Message ("first line" +:+ String lf "second line") zero_entry.

(** ** Notions for delivery *)




(** A transport whose first [N] calls fail and whose later calls succeed. *)
Definition fails_first (N : nat) : nat -> GelfMessage -> option string :=
  fun rank _ => if rank <? N then Some "connection refused" else None.

Definition fresh_world : World := {| calls := 0; trace := [] |}.


(** An entry whose message is an object with a number as its Message. *)
Definition number_message_entry : SystemdJournalEntry :=
  set_Message
    ("{" +:+ quoted "Message" +:+ ":42," +:+ quoted "Logger" +:+ ":"
       +:+ quoted "app.main.worker.0123456789.0123456789.0123456789" +:+ "}")
    zero_entry.

(** The text with a backslash before each double quote, as it stands in
    a JSON string. *)
Definition escaped (s : string) : string :=
  text (flat_map (fun c => if Ascii.eqb c dq then ["\"%char; dq] else [c]) (chars s)).

(** The journal line with that message. *)
Definition number_message_line : string :=
  "{" +:+ quoted "MESSAGE" +:+ ":"
  +:+ quoted (escaped (Message number_message_entry)) +:+ "}".

(** ** Notions for the two tasks *)

(** The main task is between its [Lock] and its [Unlock]. *)
Definition main_in_section (pc : main_pc) : bool :=
  match pc with
  | M_Locked _ | M_Send _ _ | M_Unlock => true
  | _ => false
  end.

(** [writePendingEntry] is between its [Lock] and its [Unlock]. *)
Definition flusher_in_section (pc : flush_pc) : bool :=
  match pc with
  | F_Locked | F_Unlock _ => true
  | _ => false
  end.

(** The holder of the lock, read off the two tasks. *)
Definition lock_of (m : main_pc) (f : flush_pc) : option task :=
  if main_in_section m then Some Main
  else if flusher_in_section f then Some Flusher
  else None.

(** The lock is held by the task that is in its section, and the two tasks
    are not in their sections together. *)
Definition lock_invariant (s : State) : Prop :=
  pending_lock s = lock_of (main_at s) (flusher_at s)
  ∧ main_in_section (main_at s) && flusher_in_section (flusher_at s) = false.

(** With no line to read the slot stays empty and the main task goes from
    the scanner to the last statement. *)
Definition empty_run_invariant (s : State) : Prop :=
  pending_entry s = None
  ∧ stdout s = []
  ∧ (main_at s = M_Scan ∨ main_at s = M_Err ∨ main_at s = M_Final)
  ∧ (state s = Running ∨ state s = Panicked).

(** A transport that never fails. *)
Definition reliable : nat -> GelfMessage -> option string := fun _ _ => None.

(** The state in which the main task, having read the nginx line twice, has
    just entered the [send] of the first entry. *)
Definition eviction_state : State :=
  St (Some (process nginx_entry)) (Some Main)
     (M_Send (process nginx_entry) (process nginx_entry)) F_Sleep []
     (emit (Slept (1 * Millisecond)) fresh_world) Running.

(** The state of the main task at its last statement when [journalctl] has
    given no line and the scanner no error. *)
Definition final_empty_state : State :=
  St None None M_Final F_Sleep [] fresh_world Running.

(** * Notions used in the further properties *)

(** The key under which the pattern of an entry is found. *)
Definition rule_key (this : SystemdJournalEntry) : string :=
  match messageReplace (Syslog_identifier this) with
  | Some _ => Syslog_identifier this
  | None => Comm this
  end.

(** A jenkins entry, by syslog identifier. *)
Definition jenkins_entry : SystemdJournalEntry :=
  set_string F_Syslog_identifier "jenkins"
    (set_Priority 5 (set_Message "Jan 02, 2024 3:04:05 PM hudson.model.Run execute" zero_entry)).

(** A syncthing entry, by syslog identifier. *)
Definition syncthing_entry : SystemdJournalEntry :=
  set_string F_Syslog_identifier "syncthing"
    (set_Priority 3 (set_Message "[ABCDE] 12:34:56 INFO: Ready to synchronize" zero_entry)).

(** A message that the generic pattern does match. *)
Definition braces_message : string := "2024-01-02 03:04:05,{0-3} started".

(** The JSON value is a string. *)
Definition is_str (v : Json.value) : bool :=
  match v with Json.Str _ => true | _ => false end.


(** An entry whose message starts like an object, is longer than 64 bytes
    and is no JSON text. *)
Definition broken_object_entry : SystemdJournalEntry :=
  set_Message
    ("{" +:+ quoted "request" +:+ ": GET /index.html from 192.0.2.1 took 0.123 seconds to serve")
    zero_entry.



(** The events of [n] failed attempts to hand over the envelope [g], the
    latest first; [err i] is the error of the attempt of rank [i]. *)
Fixpoint retry_events (g : GelfMessage) (err : nat -> string) (n : nat) : list event :=
  match n with
  | O => []
  | S n' =>
      Slept SLEEP_AFTER_ERROR
        :: Stderr ("Processing paused because of: " +:+ err n')
        :: WriteFailed g (err n')
        :: retry_events g err n'
  end.

(** A transport that fails on every call. *)
Definition always_fails : nat -> GelfMessage -> option string :=
  fun _ _ => Some "connection refused".

(** What [writePendingEntry] holds once it has seen an occupant: the slot
    is still occupied while it asks for the lock and takes the entry, and
    the entry it has taken is not nil. *)
Definition flusher_invariant (s : State) : Prop :=
  match flusher_at s with
  | F_Lock | F_Locked => pending_entry s ≠ None
  | F_Unlock p | F_Send p => p ≠ None
  | F_Sleep | F_Test => True
  end.

(** What holds of every state when the scanner ends with the error [err]:
    the main task never comes to its last statement, and the program, once
    ended, has ended with status 1 right after the report of the error. *)
Definition scan_failed_invariant (err : string) (s : State) : Prop :=
  match main_at s with
  | M_Final | M_FinalSend _ => False
  | _ => True
  end
  ∧ match state s with
    | Exited code =>
        code = 1%Z
        ∧ head (trace (world s)) = Some (Stderr ("Error from Scanner: " +:+ err))
    | _ => True
    end.

(** The state in which one line has been read and placed, and the scanner
    has then failed. *)
Definition scan_failed_state : State :=
  St (Some (process nginx_entry)) None M_Done F_Sleep []
     (emit (Stderr ("Error from Scanner: " +:+ "read |0: file already closed"))
        (emit (Slept (1 * Millisecond)) fresh_world))
     (Exited 1).

(** The state in which the main task has entered the [send] of its last
    statement for the occupant [this], and [writePendingEntry] has since
    taken the same occupant out of the slot and entered its own [send]. *)
Definition double_send_state (this : SystemdJournalEntry) : State :=
  St None None (M_FinalSend this) (F_Send (Some this)) []
     (emit (Slept WRITE_INTERVAL) (emit (Slept (1 * Millisecond)) fresh_world))
     Running.

(** A reading of the clock, in nanoseconds: 14 November 2023, 22:13:20 UTC. *)
Definition sample_clock : Z := 1700000000000000000.



(** The range of an [int64]. *)
Definition int64 (n : Z) : Prop := (- 2 ^ 63 <= n < 2 ^ 63)%Z.

(** The digits of a number that is not negative, before those of [acc];
    [fuel] is the number of digits at most. *)
Fixpoint digits_of (fuel : nat) (n : Z) (acc : list ascii) : list ascii :=
  match fuel with
  | O => acc
  | S fuel' =>
      let acc' := ascii_of_nat (48 + Z.to_nat (n mod 10)) :: acc in
      if (n <? 10)%Z then acc' else digits_of fuel' (n / 10) acc'
  end.

(** The decimal text of an integer, as [strconv.Itoa] writes it. *)
Definition decimal_text (n : Z) : string :=
  if (n <? 0)%Z
  then text ("-"%char :: digits_of (S (Z.to_nat (Z.log2 (- n)))) (- n) [])
  else text (digits_of (S (Z.to_nat (Z.log2 n))) n []).

(** The number in a field of the entry. *)
Definition get_int (f : int_field) (e : SystemdJournalEntry) : Z :=
  match f with
  | F_Realtime_timestamp => Realtime_timestamp e
  | F_Priority => Priority e
  end.

(** A line whose PRIORITY is one more than the largest [int32]. *)
Definition wide_priority_line : string :=
  "{" +:+ quoted "MESSAGE" +:+ ":" +:+ quoted "hello"
  +:+ "," +:+ quoted "PRIORITY" +:+ ":" +:+ quoted (decimal_text (2 ^ 31)) +:+ "}".

(** The key MESSAGE written with the long s, U+017F, twice. *)
Definition long_s_key : string :=
  text (chars "ME" ++ Json.utf8 383 ++ Json.utf8 383 ++ chars "AGE").

(** A line that is a JSON text and no object: an array. *)
Definition array_line : string := "[1, 2, 3]".

(** A line whose PRIORITY is a number without quotes. *)
Definition unquoted_priority_line : string :=
  "{" +:+ quoted "MESSAGE" +:+ ":" +:+ quoted "hello"
  +:+ "," +:+ quoted "PRIORITY" +:+ ":6}".

Definition unquoted_priority_members : list (string * Json.value) :=
  [("MESSAGE", Json.Str "hello"); ("PRIORITY", Json.Number "6")].

(** A writer that connects to every server. *)
Definition connects : string -> option string := fun _ => None.

(** A line with a key that the entry has no field for. *)
Definition selinux_line : string :=
  "{" +:+ quoted "_SELINUX_CONTEXT" +:+ ":" +:+ quoted "unconfined"
  +:+ "," +:+ quoted "MESSAGE" +:+ ":" +:+ quoted "hello"
  +:+ "," +:+ quoted "PRIORITY" +:+ ":" +:+ quoted "99" +:+ "}".

(** One more conversion of the entry that a conversion has left. *)
Definition toGelf_again (r : outcome (SystemdJournalEntry * GelfMessage))
    : outcome (SystemdJournalEntry * GelfMessage) :=
  match r with
  | Returns (this, _) => toGelf this
  | Panics => Panics
  end.

(** * Properties *)

(** ** Strings *)

Lemma chars_text l : chars (text l) = l.
Proof. apply list_ascii_of_string_of_list_ascii. Qed.

Lemma text_chars s : text (chars s) = s.
Proof. apply string_of_list_ascii_of_string. Qed.

Lemma length_chars s : length (chars s) = String.length s.
Proof. induction s as [|c s IH]; simpl; [done | by rewrite IH]. Qed.

(** ** The matcher *)

Section MatcherFacts.
Context {A : Type}.
Implicit Types (k : @Regexp.cont A) (s : list ascii) (c : Regexp.caps).
Implicit Types (step : nat -> list ascii -> Regexp.caps -> @Regexp.cont A -> option A).

Lemma advances_here pos s c k x :
  k pos s c = Some x ->
  ∃ n c', 0 ≤ n ∧ n ≤ length s ∧ k (pos + n) (drop n s) c' = Some x.
Proof. intros H. exists 0, c. rewrite Nat.add_0_r, drop_0. split_and!; first [lia | done]. Qed.

Lemma advances_more pos s k x m lo :
  m ≤ length s ->
  (∃ n c', lo ≤ n ∧ n ≤ length (drop m s)
           ∧ k (pos + m + n) (drop n (drop m s)) c' = Some x) ->
  ∃ n c', m + lo ≤ n ∧ n ≤ length s ∧ k (pos + n) (drop n s) c' = Some x.
Proof.
  intros Hm (n & c' & Hlo & Hn & Hk). exists (m + n), c'.
  rewrite length_drop in Hn. rewrite drop_drop in Hk.
  rewrite Nat.add_assoc. split_and!; first [lia | done].
Qed.

Lemma advances_weaken lo lo' step : lo' ≤ lo -> advances lo step -> advances lo' step.
Proof.
  intros Hle Hstep pos s c k x E.
  apply Hstep in E as (n & c' & H1 & H2 & H3). exists n, c'. split_and!; first [lia | done].
Qed.

Lemma star_loop_advances lo step n :
  advances lo step -> advances 0 (Regexp.star_loop step n).
Proof.
  intros Hstep. induction n as [|n IH]; intros pos s c k x; simpl.
  - apply advances_here.
  - unfold Regexp.orelse.
    destruct (step pos s c _) as [y|] eqn:E.
    + intros [= ->]. apply Hstep in E as (m & c1 & _ & Hm & Hk).
      destruct (pos + m =? pos); [done |].
      apply IH in Hk. apply (advances_more _ _ _ _ m 0 Hm) in Hk.
      destruct Hk as (n' & c' & _ & H2 & H3). exists n', c'. split_and!; first [lia | done].
    + apply advances_here.
Qed.

Lemma times_loop_advances lo step n :
  advances lo step -> advances (n * lo) (Regexp.times_loop step n).
Proof.
  intros Hstep. induction n as [|n IH]; intros pos s c k x; simpl.
  - apply advances_here.
  - intros E. apply Hstep in E as (m & c1 & Hlo & Hm & Hk).
    apply IH in Hk. apply (advances_more _ _ _ _ m _ Hm) in Hk.
    destruct Hk as (n' & c' & H1 & H2 & H3). exists n', c'. split_and!; first [lia | done].
Qed.

(** A match of a pattern is as long as the shortest text of the pattern,
    or longer. *)
Lemma run_advances r : advances (A := A) (min_len r) (Regexp.run r).
Proof.
  induction r as [| |a|rs|r1 IH1 r2 IH2|r IH|r IH|r IH|lo hi r IH|i name r IH];
    intros pos s c k x.
  - apply advances_here.
  - simpl. destruct (pos =? 0); [apply advances_here | done].
  - simpl. destruct s as [|b s]; [done |]. destruct (Ascii.eqb b a); [|done].
    intros H. exists 1, c. rewrite Nat.add_1_r. simpl. split_and!; first [lia | done].
  - simpl. destruct s as [|b s]; [done |]. destruct (Regexp.class_has rs b); [|done].
    intros H. exists 1, c. rewrite Nat.add_1_r. simpl. split_and!; first [lia | done].
  - simpl. intros E. apply IH1 in E as (m & c1 & Hlo & Hm & Hk).
    apply IH2 in Hk. apply (advances_more _ _ _ _ m _ Hm) in Hk.
    destruct Hk as (n' & c' & H1 & H2 & H3). exists n', c'. split_and!; first [lia | done].
  - apply (star_loop_advances _ _ (S (length s)) IH).
  - intros E. apply IH in E as (m & c1 & Hlo & Hm & Hk).
    apply (star_loop_advances _ _ _ IH) in Hk.
    apply (advances_more _ _ _ _ m _ Hm) in Hk.
    destruct Hk as (n' & c' & H1 & H2 & H3). exists n', c'.
    cbn [min_len]. split_and!; first [lia | done].
  - simpl. unfold Regexp.orelse. destruct (Regexp.run r pos s c k) as [y|] eqn:E.
    + intros [= ->]. apply IH in E as (n' & c' & _ & H2 & H3).
      exists n', c'. split_and!; first [lia | done].
    + apply advances_here.
  - intros E. apply (times_loop_advances _ _ _ IH) in E as (m & c1 & Hlo & Hm & Hk).
    assert (Hstar : ∃ n c', 0 ≤ n ∧ n ≤ length (drop m s)
                            ∧ k (pos + m + n) (drop n (drop m s)) c' = Some x)
      by (destruct hi; by apply (star_loop_advances _ _ _ IH) in Hk).
    apply (advances_more _ _ _ _ m _ Hm) in Hstar.
    destruct Hstar as (n' & c' & H1 & H2 & H3). exists n', c'.
    cbn [min_len]. split_and!; first [lia | done].
  - simpl. intros E. apply IH in E as (m & c1 & Hlo & Hm & Hk). eauto.
Qed.
End MatcherFacts.

(** A match found from [pos] on lies between [pos] and the end of the
    input, and is no shorter than the shortest text of the pattern. *)
Lemma match_here_span r pos s a0 a1 c :
  Regexp.match_here r pos s = Some (a0, a1, c) ->
  a0 = pos ∧ pos + min_len r ≤ a1 ∧ a1 ≤ pos + length s.
Proof.
  unfold Regexp.match_here. intros H.
  apply run_advances in H as (n & c' & Hlo & Hn & [= <- <- <-]). lia.
Qed.

Lemma search_span r s : ∀ pos a0 a1 c,
  Regexp.search r pos s = Some (a0, a1, c) ->
  pos ≤ a0 ∧ a0 + min_len r ≤ a1 ∧ a1 ≤ pos + length s.
Proof.
  induction s as [|b s IH]; intros pos a0 a1 c; simpl;
    destruct (Regexp.match_here r pos _) as [[[b0 b1] c0]|] eqn:E.
  - intros [= -> -> ->]. apply match_here_span in E. simpl in E. lia.
  - done.
  - intros [= -> -> ->]. apply match_here_span in E. simpl in E. lia.
  - intros H. apply IH in H. lia.
Qed.

Lemma doExecute_span r src p a0 a1 c :
  Regexp.doExecute r src p = Some (a0, a1, c) ->
  p ≤ a0 ∧ a0 + min_len r ≤ a1 ∧ a1 ≤ length src.
Proof.
  unfold Regexp.doExecute. destruct (p <=? length src) eqn:E; [|done].
  apply Nat.leb_le in E. intros H. apply search_span in H.
  rewrite length_drop in H. lia.
Qed.

(** A pattern that starts with [^] matches at position 0 or nowhere. *)
Lemma anchored_run {A} r pos s c (k : @Regexp.cont A) :
  anchored r = true -> pos ≠ 0 -> Regexp.run r pos s c k = None.
Proof.
  intros Ha Hpos. apply Nat.eqb_neq in Hpos.
  destruct r as [| | | |r1 r2| | | | |]; try done.
  - simpl. by rewrite Hpos.
  - destruct r1; try done. simpl. by rewrite Hpos.
Qed.

Lemma anchored_search r s : ∀ pos,
  anchored r = true -> pos ≠ 0 -> Regexp.search r pos s = None.
Proof.
  induction s as [|b s IH]; intros pos Ha Hpos; simpl;
    unfold Regexp.match_here; rewrite anchored_run by done; [done |].
  by apply IH.
Qed.

Lemma anchored_doExecute r src p :
  anchored r = true -> 0 < p -> Regexp.doExecute r src p = None.
Proof.
  intros Ha Hp. unfold Regexp.doExecute.
  destruct (p <=? length src); [|done]. apply anchored_search; [done | lia].
Qed.

Lemma anchored_first r src a0 a1 c :
  anchored r = true -> Regexp.doExecute r src 0 = Some (a0, a1, c) -> a0 = 0.
Proof.
  intros Ha. unfold Regexp.doExecute. simpl. rewrite drop_0.
  destruct src as [|b src]; simpl;
    destruct (Regexp.match_here r 0 _) as [[[b0 b1] c0]|] eqn:E; try done.
  - intros [= -> -> ->]. by apply match_here_span in E as [-> _].
  - intros [= -> -> ->]. by apply match_here_span in E as [-> _].
  - by rewrite anchored_search.
Qed.

(** ** Replacement by the empty text *)

Ltac ltb_cases :=
  repeat match goal with
         | |- context [?a <? ?b] => destruct (Nat.ltb_spec a b)
         end.

Lemma advance_spec src p a1 :
  a1 ≤ Regexp.advance src p a1 ∧ (p ≤ a1 -> p < Regexp.advance src p a1).
Proof.
  unfold Regexp.advance. destruct (Nat.ltb_spec p (length src)); cbv zeta; ltb_cases; lia.
Qed.

Lemma replaceAll_loop_step fuel r src l p buf :
  Regexp.replaceAll_loop (S fuel) r src l p buf
  = if p <=? length src then
      match Regexp.doExecute r src p with
      | None => buf ++ drop l src
      | Some (a0, a1, _) =>
          Regexp.replaceAll_loop fuel r src a1 (Regexp.advance src p a1)
            (buf ++ slice src l a0)
      end
    else buf ++ drop l src.
Proof. reflexivity. Qed.

Lemma replaceAll_loop_buf fuel r src : ∀ l p buf,
  Regexp.replaceAll_loop fuel r src l p buf
  = buf ++ Regexp.replaceAll_loop fuel r src l p [].
Proof.
  induction fuel as [|fuel IH]; intros l p buf; simpl; [done |].
  destruct (p <=? length src); [|done].
  destruct (Regexp.doExecute r src p) as [[[a0 a1] c]|]; [|done].
  rewrite (IH _ _ (buf ++ _)), (IH _ _ (slice _ _ _)). by rewrite (assoc_L (++)).
Qed.

Lemma drop_slice (src : list ascii) l a :
  l ≤ a -> drop l src = slice src l a ++ drop a src.
Proof.
  intros H. unfold slice.
  rewrite <- (take_drop (a - l) (drop l src)) at 1.
  rewrite drop_drop. do 2 f_equal. lia.
Qed.

(** The loop only removes: what it returns is the text from the end of the
    last match on, with pieces left out. *)
Lemma replaceAll_loop_sublist fuel r src : ∀ l p,
  l ≤ p -> Regexp.replaceAll_loop fuel r src l p [] `sublist_of` drop l src.
Proof.
  induction fuel as [|fuel IH]; intros l p Hlp; simpl; [done |].
  destruct (p <=? length src); [|done].
  destruct (Regexp.doExecute r src p) as [[[a0 a1] c]|] eqn:E; [|done].
  apply doExecute_span in E as (H1 & H2 & H3).
  rewrite replaceAll_loop_buf. simpl.
  rewrite (drop_slice src l a0) by lia.
  apply sublist_app; [done |].
  rewrite (drop_slice src a0 a1) by lia.
  apply sublist_inserts_l. apply IH, advance_spec.
Qed.


(** After a match that is not empty the search resumes where the match
    ends. *)
Lemma advance_nonempty src p a0 a1 :
  p ≤ a0 -> a0 < a1 -> Regexp.advance src p a1 = a1.
Proof.
  intros H1 H2. unfold Regexp.advance.
  destruct (Nat.ltb_spec p (length src)); cbv zeta; ltb_cases; lia.
Qed.

(** The loop needs no more turns than the bytes left to search plus two:
    with that many, more make no difference. *)
Lemma replaceAll_loop_fuel r src : ∀ fuel1 fuel2 l p buf,
  length src + 2 ≤ fuel1 + p -> length src + 2 ≤ fuel2 + p ->
  Regexp.replaceAll_loop fuel1 r src l p buf
  = Regexp.replaceAll_loop fuel2 r src l p buf.
Proof.
  induction fuel1 as [|fuel1 IH]; intros fuel2 l p buf H1 H2.
  - destruct fuel2 as [|fuel2]; [done |]. rewrite replaceAll_loop_step. simpl.
    destruct (Nat.leb_spec p (length src)); [lia | done].
  - rewrite replaceAll_loop_step.
    destruct fuel2 as [|fuel2].
    + simpl. destruct (Nat.leb_spec p (length src)); [lia | done].
    + rewrite replaceAll_loop_step.
      destruct (p <=? length src); [|done].
      destruct (Regexp.doExecute r src p) as [[[a0 a1] c]|] eqn:E; [|done].
      apply doExecute_span in E as (E1 & E2 & E3).
      pose proof (advance_spec src p a1) as [_ Hadv].
      apply IH; lia.
Qed.

(** Without a match the text is returned as it is. *)
Lemma ReplaceAllString_no_match r s :
  Regexp.doExecute r (chars s) 0 = None -> Regexp.ReplaceAllString_empty r s = s.
Proof.
  intros H. unfold Regexp.ReplaceAllString_empty.
  rewrite Nat.add_comm. simpl. rewrite H. simpl. by rewrite drop_0, text_chars.
Qed.


(** With a match: the text before the first match is kept, the match is
    left out, and what follows is the text after the match with pieces left
    out; for a pattern that starts with [^] nothing else is left out. *)
Lemma ReplaceAllString_first r s a0 a1 c :
  Regexp.doExecute r (chars s) 0 = Some (a0, a1, c) ->
  ∃ rest,
    chars (Regexp.ReplaceAllString_empty r s) = take a0 (chars s) ++ rest
    ∧ rest `sublist_of` drop a1 (chars s)
    ∧ (anchored r = true -> a0 = 0 ∧ rest = drop a1 (chars s)).
Proof.
  intros H. unfold Regexp.ReplaceAllString_empty.
  rewrite Nat.add_comm. change (2 + String.length s) with (S (S (String.length s))).
  rewrite replaceAll_loop_step. simpl (0 <=? _). rewrite H.
  rewrite replaceAll_loop_buf, chars_text.
  pose proof (advance_spec (chars s) 0 a1) as [Hp1 Hp2].
  exists (Regexp.replaceAll_loop (S (String.length s)) r (chars s) a1
            (Regexp.advance (chars s) 0 a1) []).
  split; [|split].
  - unfold slice. by rewrite Nat.sub_0_r, drop_0.
  - by apply replaceAll_loop_sublist.
  - intros Ha. split; [by eapply anchored_first |].
    rewrite replaceAll_loop_step. rewrite anchored_doExecute by (done || lia).
    by destruct (_ <=? _).
Qed.

(** ** The severity stored by [process] *)

Lemma set_Priority_same (this : SystemdJournalEntry) :
  set_Priority (Priority this) this = this.
Proof. by destruct this. Qed.

Lemma set_Priority_twice p p' (this : SystemdJournalEntry) :
  set_Priority p (set_Priority p' this) = set_Priority p this.
Proof. reflexivity. Qed.

Lemma last_named_some name names : ∀ idx j,
  is_Some (last_named name names idx (Some j)).
Proof.
  induction names as [|key names IH]; intros idx j; cbn [last_named]; [by eexists |].
  destruct (String.eqb name key); apply IH.
Qed.

Lemma store_subpatterns_last names m : ∀ idx this seen,
  (match seen with
   | Some i => Priority this = severity_of m i
   | None => True
   end) ->
  store_subpatterns names idx m this
  = match last_named "Priority" names idx seen with
    | Some i => set_Priority (severity_of m i) this
    | None => this
    end.
Proof.
  induction names as [|key names IH]; intros idx this seen Hseen;
    cbn [store_subpatterns last_named].
  - destruct seen as [i|]; [|done]. by rewrite <- Hseen, set_Priority_same.
  - destruct (String.eqb "Priority" key).
    + rewrite (IH (S idx) _ (Some idx)) by reflexivity.
      destruct (last_named_some "Priority" names (S idx) idx) as [i ->].
      apply set_Priority_twice.
    + by apply IH.
Qed.

Lemma store_subpatterns_group re m this :
  store_subpatterns (Regexp.SubexpNames re) 0 m this
  = match priority_group re with
    | Some i => set_Priority (severity_of m i) this
    | None => this
    end.
Proof. by apply store_subpatterns_last. Qed.

(** ** The tables *)

(** Every pattern of the table compiles. *)
Lemma patterns_compile :
  Forall (fun p => is_Some (Regexp.Compile p.2)) messageReplace_patterns.
Proof. repeat constructor; vm_compute; eauto. Qed.

(** The generic pattern is in the table, so [process] never calls a nil
    pattern. *)
Lemma generic_pattern_registered : is_Some (messageReplace "*").
Proof. by eexists. Qed.

(** No pattern of the table matches the empty text. *)
Lemma patterns_match_no_empty_text :
  Forall (fun p => 0 < min_len (MustCompile p.2)) messageReplace_patterns.
Proof. repeat constructor; vm_compute; lia. Qed.

Lemma assoc_lookup {A} same key (l : list (string * A)) v :
  assoc same key l = Some v -> ∃ k, (k, v) ∈ l.
Proof.
  induction l as [|[k w] l IH]; simpl; [done |].
  destruct (same k key).
  - intros [= ->]. exists k. apply elem_of_cons. by left.
  - intros [k' Hk']%IH. exists k'. apply elem_of_cons. by right.
Qed.

(** So, for the patterns of the table, the search for the next match
    resumes where the last one ends: the step over one character, which
    the model takes as one byte, is never made. *)
Lemma registered_pattern_resumes key re src p a0 a1 c :
  messageReplace key = Some re ->
  Regexp.doExecute re src p = Some (a0, a1, c) ->
  a0 < a1 ∧ Regexp.advance src p a1 = a1.
Proof.
  unfold messageReplace. intros Hkey Hfind.
  destruct (assoc String.eqb key messageReplace_patterns) as [pat|] eqn:E; [|done].
  injection Hkey as <-. apply assoc_lookup in E as [k Hin].
  pose proof patterns_match_no_empty_text as Hall.
  rewrite Forall_forall in Hall. specialize (Hall _ Hin). cbn [snd] in Hall.
  apply doExecute_span in Hfind as (H1 & H2 & H3).
  split; [lia |]. apply (advance_nonempty _ _ a0); lia.
Qed.

(** How the end of the generic pattern is read: [{0-3}] is not a
    repetition, so the class stands for one byte and the braces, the digits
    and the dash for themselves; with a comma it would be a repetition. *)
Lemma generic_pattern_tail :
  Regexp.Compile "[,0-9]{0-3} "
  = Some (Regexp.Concat (Regexp.CharClass [(","%char, ","%char); ("0"%char, "9"%char)])
     (Regexp.Concat (Regexp.Literal "{") (Regexp.Concat (Regexp.Literal "0")
       (Regexp.Concat (Regexp.Literal "-") (Regexp.Concat (Regexp.Literal "3")
         (Regexp.Concat (Regexp.Literal "}") (Regexp.Literal " "))))))).
Proof. reflexivity. Qed.

Lemma intended_pattern_tail :
  Regexp.Compile "[,0-9]{0,3} "
  = Some (Regexp.Concat
      (Regexp.Repeat 0 (Some 3)
         (Regexp.CharClass [(","%char, ","%char); ("0"%char, "9"%char)]))
      (Regexp.Literal " ")).
Proof. reflexivity. Qed.

Lemma assoc_default {A} (P : A -> Prop) same key (l : list (string * A)) d :
  Forall (fun kv => P kv.2) l -> P d -> P (default d (assoc same key l)).
Proof.
  intros Hl Hd. induction Hl as [|[k v] l Hv Hl IH]; simpl; [done |].
  by destruct (same k key).
Qed.

Lemma priorities_range word : is_severity (priorities word).
Proof.
  unfold priorities. apply (assoc_default is_severity); [|unfold is_severity; lia].
  unfold priorities_table, is_severity. repeat constructor; simpl; lia.
Qed.

Lemma priorities_unmapped word :
  assoc String.eqb word priorities_table = None -> priorities word = 0%Z.
Proof. unfold priorities. by intros ->. Qed.

(** ** [process] *)

(** [process] assigns the message and the severity and nothing else. *)
Lemma process_frame this :
  process this
  = set_Priority (Priority (process this)) (set_Message (Message (process this)) this).
Proof.
  unfold process.
  destruct (rule_of _) as [re|]; [|by destruct this].
  destruct (Regexp.FindStringSubmatch _ _) as [m|]; [|by destruct this].
  rewrite store_subpatterns_group.
  destruct (priority_group re); by destruct this.
Qed.

(** The severity after [process] is the one before, or the table's. *)
Lemma process_priority this :
  Priority (process this) = Priority this
  ∨ ∃ word, Priority (process this) = priorities word.
Proof.
  unfold process.
  destruct (rule_of _) as [re|]; [|by left].
  destruct (Regexp.FindStringSubmatch _ _) as [m|]; [|by left].
  rewrite store_subpatterns_group.
  destruct (priority_group re); [right | by left].
  by eexists.
Qed.

(** ** Decoding *)

Lemma quoted_int_range bits s n :
  quoted_int bits s = Some n -> (- 2 ^ (bits - 1) <= n < 2 ^ (bits - 1))%Z.
Proof.
  unfold quoted_int. destruct (signed_decimal (chars s)) as [v|]; [|done].
  simpl. destruct (fits bits v) eqn:E; [|done]. intros [= <-].
  apply andb_true_iff in E as [E1 E2]. lia.
Qed.

Lemma store_member_priority key v e e' :
  store_member key v e = Some e' -> int32 (Priority e) -> int32 (Priority e').
Proof.
  unfold store_member.
  destruct (find_field key) as [[f|f]|]; [| |by intros [= <-]].
  - destruct v; try done; by intros [= <-].
  - destruct v as [| | |s| |]; try done; try by intros [= <-].
    destruct (String.eqb s "null"); [by intros [= <-] |].
    destruct (quoted_int _ s) as [n|] eqn:E; [|done]. simpl. intros [= <-].
    destruct f; [done |]. intros _. by apply quoted_int_range in E.
Qed.

Lemma store_members_priority ms : ∀ e e',
  store_members ms e = Some e' -> int32 (Priority e) -> int32 (Priority e').
Proof.
  induction ms as [|[k v] ms IH]; intros e e'; simpl; [by intros [= <-] |].
  destruct (store_member k v e) as [e1|] eqn:E; [|done]. simpl.
  intros H He. eapply IH; [done |]. by eapply store_member_priority.
Qed.

(** The severity of a decoded line fits in 32 bits, and that is all the
    decoder checks. *)
Lemma Unmarshal_entry_priority line e :
  Unmarshal_entry line = Decoded e -> int32 (Priority e).
Proof.
  unfold Unmarshal_entry. destruct (Json.parse line) as [[| | | | |ms]|]; try done.
  destruct (store_members ms zero_entry) as [e1|] eqn:E; [|done].
  intros [= <-]. eapply store_members_priority; [done |]. unfold int32. simpl. lia.
Qed.

(** [process], with the message it works on named. *)
Lemma Message_set_Message x (this : SystemdJournalEntry) :
  Message (set_Message x this) = x.
Proof. reflexivity. Qed.

Lemma Priority_set_Message x (this : SystemdJournalEntry) :
  Priority (set_Message x this) = Priority this.
Proof. reflexivity. Qed.

Lemma store_subpatterns_message names m : ∀ idx this,
  Message (store_subpatterns names idx m this) = Message this.
Proof.
  induction names as [|key names IH]; intros idx this;
    cbn [store_subpatterns]; [done |].
  rewrite IH. by destruct (String.eqb _ _).
Qed.

Lemma process_unfold this :
  process this
  = let msg := strip_timestamp (Message this) in
    match rule_of this with
    | None => set_Message msg this
    | Some re =>
        match Regexp.doExecute re (chars msg) 0 with
        | None => set_Message msg this
        | Some m =>
            set_Message (Regexp.ReplaceAllString_empty re msg)
              (store_subpatterns (Regexp.SubexpNames re) 0
                 (Regexp.submatches re (chars msg) m) (set_Message msg this))
        end
    end.
Proof.
  unfold process, Regexp.FindStringSubmatch. cbv zeta.
  change (rule_of (set_Message _ this)) with (rule_of this).
  destruct (rule_of this) as [re|]; [|done].
  rewrite Message_set_Message.
  destruct (Regexp.doExecute _ _ _) as [m|]; [|done].
  cbn [fmap option_fmap option_map]. by rewrite store_subpatterns_message.
Qed.

(** ** The claims about normalization *)

(** C1 (the code departs from the claim).  On the line of the nginx example
    the decoder gives the entry of the example, and [process] gives it the
    severity 3 of the captured word, but the short message keeps the date
    and the time: the generic pattern ends in the literal text [{0-3} ] and
    does not match, and only the bracketed word is removed. *)
Theorem C1_nginx_example_keeps_timestamp :
  Unmarshal_entry nginx_line = Decoded nginx_entry
  ∧ Priority (process nginx_entry) = 3%Z
  ∧ Message (process nginx_entry) = "2024-01-02 03:04:05 disk full"
  ∧ Message (process nginx_entry) ≠ "disk full".
Proof. vm_compute. repeat split; done. Qed.

Lemma chars_app s1 s2 : chars (s1 +:+ s2) = chars s1 ++ chars s2.
Proof. induction s1 as [|c s1 IH]; simpl; [done | by rewrite <- IH]. Qed.

Lemma search_unfold r pos s :
  Regexp.search r pos s
  = match Regexp.match_here r pos s with
    | Some m => Some m
    | None =>
        match s with
        | [] => None
        | _ :: s' => Regexp.search r (S pos) s'
        end
    end.
Proof. by destruct s. Qed.

(** The generic pattern does not match a text that starts with a date and
    a time followed by a space. *)
Lemma generic_pattern_misses rest re :
  messageReplace "*" = Some re ->
  Regexp.doExecute re (chars (sample_timestamp +:+ rest)) 0 = None.
Proof.
  intros H.
  assert (Ha : anchored re = true)
    by (vm_compute in H; injection H as <-; reflexivity).
  assert (Hm : Regexp.match_here re 0 (chars sample_timestamp ++ chars rest) = None)
    by (vm_compute in H; injection H as <-; vm_compute; reflexivity).
  unfold Regexp.doExecute. cbn [Nat.leb]. rewrite drop_0, chars_app.
  rewrite search_unfold, Hm.
  destruct (_ ++ _); [done |]. by apply anchored_search.
Qed.

(** C2 (the code departs from the claim).  For a message that starts with
    2024-01-02 03:04:05 and a space, whatever follows and whatever the
    facility, the generic pattern removes nothing; and when the entry has no
    rule, [process] leaves the message as it is, date and time included. *)
Theorem C2_timestamp_not_stripped (this : SystemdJournalEntry) (rest : string) :
  Message this = sample_timestamp +:+ rest ->
  strip_timestamp (Message this) = sample_timestamp +:+ rest
  ∧ (rule_of this = None -> Message (process this) = sample_timestamp +:+ rest).
Proof.
  intros Hmsg.
  assert (Hstrip : strip_timestamp (Message this) = sample_timestamp +:+ rest).
  { rewrite Hmsg. unfold strip_timestamp.
    destruct (messageReplace "*") as [re|] eqn:E; [|done].
    apply ReplaceAllString_no_match. by apply generic_pattern_misses. }
  split; [exact Hstrip |].
  intros Hrule. by rewrite process_unfold, Hrule, Message_set_Message.
Qed.

Lemma C2_timestamp_not_stripped_witness :
  let this := set_Message (sample_timestamp +:+ "hello") zero_entry in
  Message this = sample_timestamp +:+ "hello"
  ∧ strip_timestamp (Message this) = sample_timestamp +:+ "hello"
  ∧ (rule_of this = None -> Message (process this) = sample_timestamp +:+ "hello").
Proof.
  intros this. split; [reflexivity |].
  exact (C2_timestamp_not_stripped this "hello" eq_refl).
Defined.

(** C3, as stated, fails: the line with PRIORITY 99 is decoded, no rule
    applies to it, and the entry leaves [process] with the severity 99. *)
Lemma C3_out_of_range_severity :
  Unmarshal_entry priority_99_line = Decoded priority_99_entry
  ∧ Priority (process priority_99_entry) = 99%Z
  ∧ ¬ is_severity (Priority (process priority_99_entry)).
Proof. vm_compute. repeat split; try done. intros [_ H]. by apply H. Qed.

(** The severity after [process], case by case. *)
Lemma process_priority_exact this :
  Priority (process this)
  = match rule_of this with
    | None => Priority this
    | Some re =>
        match Regexp.doExecute re (chars (strip_timestamp (Message this))) 0 with
        | None => Priority this
        | Some m =>
            match priority_group re with
            | None => Priority this
            | Some i =>
                priorities (ToLower (nth i
                  (Regexp.submatches re (chars (strip_timestamp (Message this))) m) ""))
            end
        end
    end.
Proof.
  rewrite process_unfold. cbv zeta.
  destruct (rule_of this) as [re|]; [|done].
  destruct (Regexp.doExecute _ _ _) as [m|]; [|done].
  rewrite Priority_set_Message, store_subpatterns_group.
  by destruct (priority_group re).
Qed.

Lemma store_member_other_field key v e e' :
  store_member key v e = Some e' ->
  find_field key ≠ Some (FInt F_Priority) -> Priority e' = Priority e.
Proof.
  unfold store_member.
  destruct (find_field key) as [[f|f]|]; [| |by intros [= <-]].
  - destruct v; try done; intros [= <-] _; by destruct f.
  - destruct v as [| | |s| |]; try done; try by intros [= <-].
    destruct (String.eqb s "null"); [by intros [= <-] |].
    destruct (quoted_int _ s) as [n|]; [|done]. simpl. intros [= <-].
    by destruct f.
Qed.

Lemma store_members_other_fields ms : ∀ e e',
  store_members ms e = Some e' ->
  Forall (fun kv => find_field kv.1 ≠ Some (FInt F_Priority)) ms ->
  Priority e' = Priority e.
Proof.
  induction ms as [|[k v] ms IH]; intros e e'; simpl; [by intros [= <-] |].
  destruct (store_member k v e) as [e1|] eqn:E; [|done]. simpl.
  intros H [Hk Hms]%Forall_cons. rewrite (IH _ _ H Hms).
  by eapply store_member_other_field.
Qed.

(** C3, amended.  The severity of an entry decoded from a line is the
    PRIORITY of the line, which is any 32-bit integer, and 0 when no member
    of the line is stored in that field; nothing checks its range.
    [process] leaves that severity as it is unless the pattern of the entry
    matches and has a group named Priority: the severity is then the value
    of the Severity Table for the lower-cased text of the group, which is
    one of the levels 0..7, and the table reads a word it does not hold
    as 0. *)
Theorem C3_severity_after_process line e :
  Unmarshal_entry line = Decoded e ->
  int32 (Priority e)
  ∧ (∀ ms, Json.parse line = Some (Json.Obj ms) ->
       Forall (fun kv => find_field kv.1 ≠ Some (FInt F_Priority)) ms ->
       Priority e = 0%Z)
  ∧ Priority (process e)
    = match rule_of e with
      | None => Priority e
      | Some re =>
          match Regexp.doExecute re (chars (strip_timestamp (Message e))) 0 with
          | None => Priority e
          | Some m =>
              match priority_group re with
              | None => Priority e
              | Some i =>
                  priorities (ToLower (nth i
                    (Regexp.submatches re (chars (strip_timestamp (Message e))) m) ""))
              end
          end
      end
  ∧ (∀ word, is_severity (priorities word))
  ∧ (∀ word, assoc String.eqb word priorities_table = None -> priorities word = 0%Z).
Proof.
  intros H. split_and!.
  - by eapply Unmarshal_entry_priority.
  - intros ms Hparse Hms. unfold Unmarshal_entry in H. rewrite Hparse in H.
    destruct (store_members ms zero_entry) as [e1|] eqn:E; [|done].
    injection H as <-. by rewrite (store_members_other_fields _ _ _ E Hms).
  - apply process_priority_exact.
  - apply priorities_range.
  - apply priorities_unmapped.
Qed.

Lemma C3_severity_after_process_witness :
  Unmarshal_entry nginx_line = Decoded nginx_entry
  ∧ int32 (Priority nginx_entry)
  ∧ Priority (process nginx_entry) = 3%Z
  ∧ Priority (process priority_99_entry) = Priority priority_99_entry.
Proof.
  assert (H : Unmarshal_entry nginx_line = Decoded nginx_entry)
    by (vm_compute; reflexivity).
  assert (H' : Unmarshal_entry priority_99_line = Decoded priority_99_entry)
    by (vm_compute; reflexivity).
  split; [exact H |].
  split; [exact (proj1 (C3_severity_after_process nginx_line nginx_entry H)) |].
  split.
  - etrans; [exact (proj1 (proj2 (proj2
      (C3_severity_after_process nginx_line nginx_entry H)))) |].
    vm_compute. reflexivity.
  - etrans; [exact (proj1 (proj2 (proj2
      (C3_severity_after_process priority_99_line priority_99_entry H')))) |].
    vm_compute. reflexivity.
Defined.

(** C10.  [process] changes the message and the severity only: the entry it
    returns is the entry it was given with these two fields assigned, so
    every other field, of either type, is as before. *)
Theorem C10_process_frame (this : SystemdJournalEntry) :
  process this
  = set_Priority (Priority (process this)) (set_Message (Message (process this)) this)
  ∧ Realtime_timestamp (process this) = Realtime_timestamp this
  ∧ Cursor (process this) = Cursor this
  ∧ Monotonic_timestamp (process this) = Monotonic_timestamp this
  ∧ Boot_id (process this) = Boot_id this
  ∧ Transport (process this) = Transport this
  ∧ Syslog_facility (process this) = Syslog_facility this
  ∧ Syslog_identifier (process this) = Syslog_identifier this
  ∧ Pid (process this) = Pid this
  ∧ Comm (process this) = Comm this
  ∧ Hostname (process this) = Hostname this
  ∧ Machine_id (process this) = Machine_id this
  ∧ FullMessage (process this) = FullMessage this
  ∧ ∀ f, (if f is F_Message then True else get_string f (process this) = get_string f this).
Proof.
  pose proof (process_frame this) as H.
  repeat split; try (rewrite H; reflexivity).
  intros f. rewrite H. by destruct f.
Qed.

(** C4, as stated, fails: the nginx pattern matches the first eight bytes
    of the message of [nginx_twice], and [process] removes that span and the
    second match of the pattern as well. *)
Lemma C4_second_match_removed :
  let re := MustCompile "\[(?P<Priority>[a-z]+)\] " in
  let msg := strip_timestamp (Message nginx_twice) in
  rule_of nginx_twice = Some re
  ∧ Regexp.doExecute re (chars msg) 0 = Some (0, 8, [(1, chars "error")])
  ∧ without_span msg 0 8 = "upstream timed out [warn] retrying"
  ∧ Message (process nginx_twice) = "upstream timed out retrying"
  ∧ Message (process nginx_twice) ≠ without_span msg 0 8.
Proof.
  intros re msg.
  split; [vm_compute; reflexivity |]. split; [vm_compute; reflexivity |].
  split; [vm_compute; reflexivity |]. split; [vm_compute; reflexivity |].
  vm_compute. discriminate.
Qed.

(** With matches that are not empty, the loop leaves out the successive
    matches of the pattern and nothing else. *)
Lemma replaceAll_loop_spans r src :
  (∀ p a0 a1 c, Regexp.doExecute r src p = Some (a0, a1, c) -> a0 < a1) ->
  ∀ fuel p, length src + 2 ≤ fuel + p ->
    ∃ spans,
      successive_matches r src p spans
      ∧ Regexp.replaceAll_loop fuel r src p p [] = without_spans src p spans.
Proof.
  intros Hne. induction fuel as [|fuel IH]; intros p Hfuel.
  - exists []. split; [|done]. apply no_more. unfold Regexp.doExecute.
    destruct (Nat.leb_spec p (length src)); [lia | done].
  - rewrite replaceAll_loop_step.
    destruct (Nat.leb_spec p (length src)) as [Hp|Hp].
    + destruct (Regexp.doExecute r src p) as [[[a0 a1] c]|] eqn:E.
      * pose proof (Hne _ _ _ _ E) as Hlt.
        pose proof (doExecute_span _ _ _ _ _ _ E) as (H1 & H2 & H3).
        rewrite (advance_nonempty _ _ a0) by lia.
        destruct (IH a1) as (spans & Hspans & Heq); [lia |].
        exists ((a0, a1) :: spans). split; [by eapply one_more |].
        rewrite replaceAll_loop_buf, Heq. reflexivity.
      * exists []. split; [by apply no_more | done].
    + exists []. split; [|done]. apply no_more. unfold Regexp.doExecute.
      destruct (Nat.leb_spec p (length src)); [lia | done].
Qed.

(** C4, amended.  When the pattern of the entry (by syslog identifier, or
    else by command name) matches the message that the generic pattern has
    been applied to, [process] removes every match of the pattern: the
    first match, then the leftmost match after it, and so on until no match
    is left to the right; the text before, between and after these matches
    is kept as it is.  A pattern that starts with [^] has no second match,
    so the matched prefix is removed and nothing else.  The severity becomes
    the table's value for the lower-cased text of the group named Priority
    in the first match, and stays as it was when the pattern has no such
    group. *)
Theorem C4_rule_matched (this : SystemdJournalEntry) re a0 a1 c :
  rule_of this = Some re ->
  Regexp.doExecute re (chars (strip_timestamp (Message this))) 0 = Some (a0, a1, c) ->
  (∃ spans,
     successive_matches re (chars (strip_timestamp (Message this))) a1 spans
     ∧ chars (Message (process this))
       = take a0 (chars (strip_timestamp (Message this)))
         ++ without_spans (chars (strip_timestamp (Message this))) a1 spans
     ∧ (anchored re = true -> a0 = 0 ∧ spans = []))
  ∧ match priority_group re with
    | Some i =>
        Priority (process this)
        = priorities (ToLower (nth i
            (Regexp.submatches re (chars (strip_timestamp (Message this))) (a0, a1, c)) ""))
    | None => Priority (process this) = Priority this
    end.
Proof.
  intros Hrule Hfind. rewrite process_unfold, Hrule. cbv zeta. rewrite Hfind.
  split.
  - rewrite Message_set_Message.
    set (src := chars (strip_timestamp (Message this))) in *.
    assert (Hne : ∀ p b0 b1 d, Regexp.doExecute re src p = Some (b0, b1, d) -> b0 < b1).
    { intros p b0 b1 d Hd. unfold rule_of in Hrule.
      destruct (messageReplace (Syslog_identifier this)) as [re'|] eqn:E.
      - injection Hrule as ->.
        by destruct (registered_pattern_resumes _ _ _ _ _ _ _ E Hd).
      - by destruct (registered_pattern_resumes _ _ _ _ _ _ _ Hrule Hd). }
    unfold Regexp.ReplaceAllString_empty. fold src.
    rewrite <- length_chars. fold src.
    rewrite Nat.add_comm. change (2 + length src) with (S (S (length src))).
    rewrite replaceAll_loop_step. simpl (0 <=? _). rewrite Hfind.
    pose proof (doExecute_span _ _ _ _ _ _ Hfind) as (H1 & H2 & H3).
    pose proof (Hne _ _ _ _ Hfind) as Hlt.
    rewrite (advance_nonempty _ _ a0) by lia.
    destruct (replaceAll_loop_spans re src Hne (S (length src)) a1) as (spans & Hspans & Heq);
      [lia |].
    exists spans. split; [exact Hspans |]. split.
    + rewrite chars_text, replaceAll_loop_buf, Heq.
      unfold slice. by rewrite Nat.sub_0_r, drop_0.
    + intros Ha. split; [by eapply anchored_first |].
      inversion Hspans as [p Hnone|p b0 b1 d spans' Hd Hrest]; [done |]. subst.
      rewrite anchored_doExecute in Hd; [done | done | lia].
  - rewrite Priority_set_Message, store_subpatterns_group.
    by destruct (priority_group re).
Qed.

Lemma C4_rule_matched_witness :
  let re := MustCompile "\[(?P<Priority>[a-z]+)\] " in
  let src := chars (strip_timestamp (Message nginx_twice)) in
  let c := [(1, chars "error")] in
  rule_of nginx_twice = Some re
  ∧ Regexp.doExecute re src 0 = Some (0, 8, c)
  ∧ priority_group re = Some 1
  ∧ (∃ spans,
       successive_matches re src 8 spans
       ∧ chars (Message (process nginx_twice)) = take 0 src ++ without_spans src 8 spans
       ∧ (anchored re = true -> 0 = 0 ∧ spans = []))
  ∧ match priority_group re with
    | Some i =>
        Priority (process nginx_twice)
        = priorities (ToLower (nth i (Regexp.submatches re src (0, 8, c)) ""))
    | None => Priority (process nginx_twice) = Priority nginx_twice
    end.
Proof.
  intros re src c.
  assert (H1 : rule_of nginx_twice = Some re) by (vm_compute; reflexivity).
  assert (H2 : Regexp.doExecute re src 0 = Some (0, 8, c)) by (vm_compute; reflexivity).
  split; [exact H1 |]. split; [exact H2 |].
  split; [vm_compute; reflexivity |].
  exact (C4_rule_matched nginx_twice re 0 8 c H1 H2).
Defined.

(** ** The envelope *)

(** A value that holds no number out of range is stored as it is. *)
Lemma stored_in_range : ∀ v, Json.out_of_range v = false -> Json.stored v = v.
Proof.
  fix IH 1. intros [|b|literal|s|vs|ms]; simpl; try done.
  - by intros ->.
  - intros H. f_equal. induction vs as [|v vs IHvs]; simpl in *; [done |].
    apply orb_false_iff in H as [H1 H2]. by rewrite (IH v H1), (IHvs H2).
  - intros H. f_equal. induction ms as [|[k v] ms IHms]; simpl in *; [done |].
    apply orb_false_iff in H as [H1 H2]. by rewrite (IH v H1), (IHms H2).
Qed.

(** Storing the members of an object over a map: each key reads as its last
    member, as the decoder stores it, or else as in the map. *)
Lemma lookup_stored_members ms : ∀ (extra : gmap string Json.value) key,
  foldl (fun m kv => <[kv.1 := Json.stored kv.2]> m) extra ms !! key
  = match member key ms with
    | Some v => Some (Json.stored v)
    | None => extra !! key
    end.
Proof.
  induction ms as [|[k v] ms IH]; intros extra key; simpl; [done |].
  rewrite IH. destruct (member key ms); [done |].
  destruct (String.eqb_spec k key) as [->|Hne].
  - by rewrite lookup_insert_eq.
  - by rewrite lookup_insert_ne.
Qed.

Lemma member_in_range key ms v :
  forallb (fun kv => negb (Json.out_of_range kv.2)) ms = true ->
  member key ms = Some v -> Json.stored v = v.
Proof.
  intros Hall. induction ms as [|[k x] ms IH]; simpl in *; [done |].
  apply andb_true_iff in Hall as [Hx Hall].
  destruct (member key ms) as [y|].
  - intros [= ->]. by apply IH.
  - destruct (String.eqb k key); [|done]. intros [= ->].
    apply stored_in_range. by apply negb_true_iff.
Qed.





(** [Index] is -1 exactly when the separator is absent. *)
Lemma Index_spec s sep :
  (Index s sep = (-1)%Z ∧ sep ∉ s) ∨ ((0 <= Index s sep)%Z ∧ sep ∈ s).
Proof.
  induction s as [|c s IH]; simpl.
  - left. split; [done | apply not_elem_of_nil].
  - destruct (Ascii.eqb_spec c sep) as [->|Hne].
    + right. split; [lia | apply elem_of_cons; by left].
    + destruct IH as [[-> Hn]|[Hi Hin]].
      * left. split; [done |]. rewrite elem_of_cons. intros [->|?]; done.
      * right. split; [|apply elem_of_cons; by right].
        destruct (Index s sep) as [|p|p]; try lia.
Qed.

(** [Split_first] is the text before the first separator. *)
Lemma Split_first_spec s sep :
  (sep ∉ Split_first s sep)
  ∧ (sep ∈ s -> ∃ rest, s = Split_first s sep ++ sep :: rest).
Proof.
  induction s as [|c s [IH1 IH2]]; simpl.
  - split; [apply not_elem_of_nil |]. by intros ?%elem_of_nil.
  - destruct (Ascii.eqb_spec c sep) as [->|Hne].
    + split; [apply not_elem_of_nil |]. intros _. by exists s.
    + split.
      * rewrite elem_of_cons. intros [->|?]; done.
      * rewrite elem_of_cons. intros [->|Hin]; [done |].
        destruct (IH2 Hin) as [rest Hrest]. exists rest. simpl. by rewrite <- Hrest.
Qed.

(** C6, as stated, fails in its second half: the message of
    [two_line_object_entry] is an object written on two lines, it is
    JSON-shaped and has no member Message, so the envelope carries it whole,
    line break included, as its short message. *)
Lemma C6_short_message_with_line_break :
  isJsonMessage two_line_object_entry = true
  ∧ ∃ g, toGelf two_line_object_entry = Returns (two_line_object_entry, g)
         ∧ Short g = Message two_line_object_entry
         ∧ lf ∈ chars (Short g).
Proof.
  split; [vm_compute; reflexivity |].
  eexists. split; [vm_compute; reflexivity |]. split; [reflexivity |].
  apply (bool_decide_unpack _). by vm_compute.
Qed.

(** C6, amended.  For an entry whose message is not JSON-shaped, the short
    message of the envelope holds no line break; and when the message holds
    one, the short message is the text before the first and the full message
    is the message as it was.  (An envelope built from a JSON-shaped message
    may hold line breaks in its short message.) *)
Theorem C6_split_at_line_break (this : SystemdJournalEntry) :
  isJsonMessage this = false ->
  ∃ this' g,
    toGelf this = Returns (this', g)
    ∧ (lf ∉ chars (Short g))
    ∧ (lf ∈ chars (Message this) ->
       Full g = Message this
       ∧ ∃ rest, chars (Message this) = chars (Short g) ++ lf :: rest).
Proof.
  intros Hshape. unfold toGelf, expand_message. rewrite Hshape.
  destruct (Index_spec (chars (Message this)) lf) as [[Hi Hn]|[Hi Hin]].
  - rewrite Hi. simpl. do 2 eexists. split; [reflexivity |]. by split.
  - destruct (Z.eqb_spec (Index (chars (Message this)) lf) (-1)) as [?|_]; [lia |].
    simpl negb. cbv iota. do 2 eexists. split; [reflexivity |].
    cbn [Short Full]. rewrite Message_set_Message, chars_text.
    change (Message (set_FullMessage (Message this) this)) with (Message this).
    destruct (Split_first_spec (chars (Message this)) lf) as [H1 H2].
    split; [done |]. intros _. split; [reflexivity | by apply H2].
Qed.

Lemma C6_split_at_line_break_witness :
  isJsonMessage two_line_entry = false
  ∧ ∃ this' g,
      toGelf two_line_entry = Returns (this', g)
      ∧ (lf ∉ chars (Short g))
      ∧ (lf ∈ chars (Message two_line_entry) ->
         Full g = Message two_line_entry
         ∧ ∃ rest, chars (Message two_line_entry) = chars (Short g) ++ lf :: rest).
Proof.
  assert (H : isJsonMessage two_line_entry = false) by (vm_compute; reflexivity).
  split; [exact H |]. exact (C6_split_at_line_break two_line_entry H).
Defined.

(** ** Delivery *)





(** C7, as stated, fails: the transport never fails, and [send] hands over
    no envelope for the entry of this line, whose message is an object with
    a number as its Message: the conversion panics, whatever the number of
    turns. *)
Lemma C7_no_delivery_when_conversion_panics :
  Unmarshal_entry number_message_line = Decoded number_message_entry
  ∧ process number_message_entry = number_message_entry
  ∧ (∀ rank m, reliable rank m = None)
  ∧ ∀ fuel, send reliable (S fuel) number_message_entry fresh_world = Some Panics.
Proof.
  split; [vm_compute; reflexivity |]. split; [vm_compute; reflexivity |].
  split; [done |]. intros fuel.
  assert (H : toGelf number_message_entry = Panics) by (vm_compute; reflexivity).
  cbn [send]. by rewrite H.
Qed.



Lemma length_text l : String.length (text l) = length l.
Proof. by rewrite <- length_chars, chars_text. Qed.

Lemma Split_first_length s sep : length (Split_first s sep) ≤ length s.
Proof.
  induction s as [|c s IH]; simpl; [done |].
  destruct (Ascii.eqb c sep); simpl; lia.
Qed.

(** The first line of a message that is not JSON-shaped is not JSON-shaped
    either. *)
Lemma first_line_not_JSON_shaped (this other : SystemdJournalEntry) :
  isJsonMessage this = false ->
  isJsonMessage (set_Message (text (Split_first (chars (Message this)) lf)) other)
  = false.
Proof.
  unfold isJsonMessage. rewrite Message_set_Message, chars_text, length_text.
  rewrite <- length_chars.
  destruct (chars (Message this)) as [|c0 [|c1 l]]; [done | |].
  - intros _. simpl. by destruct (Ascii.eqb c0 lf).
  - cbn [Split_first]. destruct (Ascii.eqb c0 lf); [done |].
    destruct (Ascii.eqb c1 lf); [done |].
    pose proof (Split_first_length l lf) as Hlen.
    intros [H|H]%andb_false_iff; apply andb_false_iff; [left | by right].
    apply Nat.ltb_ge. apply Nat.ltb_ge in H. simpl in *. lia.
Qed.

(** An entry whose message is not JSON-shaped is converted without a panic,
    and is left with a message that is not JSON-shaped. *)
Lemma toGelf_plain (this : SystemdJournalEntry) :
  isJsonMessage this = false ->
  ∃ this' g, toGelf this = Returns (this', g) ∧ isJsonMessage this' = false.
Proof.
  intros Hshape. unfold toGelf, expand_message. rewrite Hshape.
  destruct (negb _); do 2 eexists; (split; [reflexivity |]); [|done].
  change (Message (set_FullMessage (Message this) this)) with (Message this).
  by apply first_line_not_JSON_shaped.
Qed.

(** ** The two tasks *)

Lemma lock_invariant_step transport scan_error s s' :
  step transport scan_error s s' -> lock_invariant s -> lock_invariant s'.
Proof.
  unfold lock_invariant.
  intros [H|H]; inversion H; subst; cbn; intros [Hl Hx];
    repeat match goal with
           | f : flush_pc |- _ => destruct f
           | m : main_pc |- _ => destruct m
           end; cbn in *; try done.
Qed.

Lemma lock_invariant_reachable transport scan_error lines s :
  reachable transport scan_error lines s -> lock_invariant s.
Proof.
  induction 1 as [|s s' _ IH Hstep]; [done |].
  by eapply lock_invariant_step.
Qed.

Lemma eviction_state_reachable :
  reachable reliable None [nginx_line; nginx_line] eviction_state.
Proof.
  assert (Hline : Unmarshal_entry nginx_line = Decoded nginx_entry)
    by (vm_compute; reflexivity).
  unfold eviction_state.
  eapply reach_step; [|left; apply evict_call].
  eapply reach_step; [|left; apply main_lock].
  eapply reach_step; [|left; by apply scan_entry].
  eapply reach_step; [|left; apply main_sleep].
  eapply reach_step; [|left; eapply main_unlock with (lock := Some Main)].
  eapply reach_step; [|left; apply place].
  eapply reach_step; [|left; apply main_lock].
  eapply reach_step; [|left; by apply scan_entry].
  apply reach_initial.
Qed.

(** C8, as stated, fails: after two lines the main task finds the slot
    occupied and is inside the [send] of the occupant with the lock of the
    slot still in its hands ([pending.Unlock()] comes after the call). *)
Lemma C8_producer_delivers_under_lock :
  reachable reliable None [nginx_line; nginx_line] eviction_state
  ∧ main_at eviction_state = M_Send (process nginx_entry) (process nginx_entry)
  ∧ delivering Main eviction_state
  ∧ holds_lock Main eviction_state.
Proof. split; [apply eviction_state_reachable | by repeat split]. Qed.

(** C8, amended.  In every state the program reaches: [writePendingEntry]
    is inside [send] only with the lock released; the main task is inside
    the [send] of its last statement without the lock; and the main task is
    inside the [send] of an occupant it evicts with the lock in its hands,
    which it gives back after that call and the assignment of the new
    entry. *)
Theorem C8_lock_and_delivery transport scan_error lines s :
  reachable transport scan_error lines s ->
  (delivering Flusher s -> ¬ holds_lock Flusher s)
  ∧ (∀ occupant, main_at s = M_FinalSend occupant -> ¬ holds_lock Main s)
  ∧ (∀ occupant entry, main_at s = M_Send occupant entry -> holds_lock Main s).
Proof.
  intros [Hlock Hexcl]%lock_invariant_reachable.
  unfold delivering, holds_lock, lock_of in *.
  destruct s as [slot lock m f lines' w st]; cbn in *. subst lock.
  split; [|split].
  - destruct f; try done. intros _. by destruct (main_in_section m).
  - intros occupant ->. cbn. by destruct (flusher_in_section f).
  - by intros occupant entry ->.
Qed.

Lemma C8_lock_and_delivery_witness :
  reachable reliable None [nginx_line; nginx_line] eviction_state
  ∧ (delivering Flusher eviction_state -> ¬ holds_lock Flusher eviction_state)
  ∧ (∀ occupant, main_at eviction_state = M_FinalSend occupant
     -> ¬ holds_lock Main eviction_state)
  ∧ (∀ occupant entry, main_at eviction_state = M_Send occupant entry
     -> holds_lock Main eviction_state).
Proof.
  split; [exact eviction_state_reachable |].
  exact (C8_lock_and_delivery reliable None [nginx_line; nginx_line] eviction_state
           eviction_state_reachable).
Defined.

Lemma empty_run_step transport s s' :
  step transport None s s' -> empty_run_invariant s -> empty_run_invariant s'.
Proof.
  unfold empty_run_invariant.
  intros [H|H]; inversion H; subst; cbn;
    intros (Hslot & Hlines & Hmain & Hstate); try done;
    try (destruct Hmain as [?|[?|?]]; done);
    repeat split; auto.
Qed.

Lemma empty_run_reachable transport s :
  reachable transport None [] s -> empty_run_invariant s.
Proof.
  induction 1 as [|s s' _ IH Hstep].
  - unfold empty_run_invariant. cbn. auto.
  - by eapply empty_run_step.
Qed.

(** C9 (the code departs from the claim).  When [journalctl] gives no line
    and the scanner no error, the main task reaches its last statement with
    the slot empty; the only step it has there is the panic of [send] on the
    nil occupant; and no run of the program ends with the exit status 0. *)
Theorem C9_final_flush_panics_on_empty_slot transport :
  reachable transport None [] final_empty_state
  ∧ (∀ s', main_step transport None final_empty_state s' -> state s' = Panicked)
  ∧ (∃ s', main_step transport None final_empty_state s' ∧ state s' = Panicked)
  ∧ (∀ fuel w, send_ptr transport fuel None w = Some Panics)
  ∧ (∀ s, reachable transport None [] s -> state s ≠ Exited 0).
Proof.
  split; [|split; [|split; [|split]]].
  - unfold final_empty_state.
    eapply reach_step; [|left; by apply scanner_ok].
    eapply reach_step; [|left; apply scan_end].
    apply reach_initial.
  - intros s' H. by inversion H.
  - eexists. split; [apply final_nil | done].
  - done.
  - intros s [_ [_ [_ [H|H]]]]%empty_run_reachable; by rewrite H.
Qed.

(** [toGelf] rewrites the entry, so a retry converts the entry that the
    failed attempt has left: here the first envelope carries the member
    Logger of the object, and the envelope that is handed over after one
    failure carries the empty Logger of the entry. *)
Lemma retry_converts_rewritten_entry :
  match toGelf object_entry with
  | Returns (this1, g1) =>
      Extra g1 !! "Logger" = Some (Json.Str "app.main.worker.0123456789.0123")
      ∧ match toGelf this1 with
        | Returns (this2, g2) =>
            g2 ≠ g1
            ∧ Extra g2 !! "Logger" = Some (Json.Str "")
            ∧ Short g2 = "short"
            ∧ Full g2 = "full text"
            ∧ match send (fails_first 1) 2 object_entry fresh_world with
              | Some (Returns (_, w)) => head (trace w) = Some (Wrote g2)
              | _ => False
              end
        | Panics => False
        end
  | Panics => False
  end.
Proof.
  vm_compute. split; [reflexivity |]. split; [discriminate |].
  repeat split; reflexivity.
Qed.

(** * Further properties of the program *)

(** ** [process] and the message *)

Lemma ReplaceAllString_sublist r s :
  chars (Regexp.ReplaceAllString_empty r s) `sublist_of` chars s.
Proof.
  unfold Regexp.ReplaceAllString_empty. rewrite chars_text.
  rewrite <- (drop_0 (chars s)) at 2. by apply replaceAll_loop_sublist.
Qed.

Lemma strip_timestamp_sublist msg : chars (strip_timestamp msg) `sublist_of` chars msg.
Proof.
  unfold strip_timestamp. destruct (messageReplace "*"); [|done].
  apply ReplaceAllString_sublist.
Qed.

(** X1.  [process] only removes bytes from the message: what it leaves is
    the message it was given with pieces left out, in the same order. *)
Theorem process_only_removes (this : SystemdJournalEntry) :
  chars (Message (process this)) `sublist_of` chars (Message this)
  ∧ String.length (Message (process this)) ≤ String.length (Message this).
Proof.
  assert (H : chars (Message (process this)) `sublist_of` chars (Message this)).
  { rewrite process_unfold. cbv zeta.
    destruct (rule_of this) as [re|];
      [|rewrite Message_set_Message; apply strip_timestamp_sublist].
    destruct (Regexp.doExecute _ _ _) as [m|];
      [|rewrite Message_set_Message; apply strip_timestamp_sublist].
    rewrite Message_set_Message.
    etrans; [apply ReplaceAllString_sublist | apply strip_timestamp_sublist]. }
  split; [exact H |]. rewrite <- !length_chars. by apply sublist_length.
Qed.

Lemma rule_of_key this : rule_of this = messageReplace (rule_key this).
Proof.
  unfold rule_of, rule_key. by destruct (messageReplace (Syslog_identifier this)) eqn:E.
Qed.

(** X2.  A rule that matches makes the message shorter, and nothing else
    does: after the generic pattern, [process] returns the message as it is
    exactly when the entry has no rule or its rule does not match. *)
Theorem process_shortens_on_match (this : SystemdJournalEntry) :
  match rule_of this with
  | Some re =>
      match Regexp.doExecute re (chars (strip_timestamp (Message this))) 0 with
      | Some _ =>
          String.length (Message (process this))
          < String.length (strip_timestamp (Message this))
      | None => process this = set_Message (strip_timestamp (Message this)) this
      end
  | None => process this = set_Message (strip_timestamp (Message this)) this
  end.
Proof.
  rewrite process_unfold. cbv zeta.
  destruct (rule_of this) as [re|] eqn:Hrule; [|done].
  destruct (Regexp.doExecute _ _ _) as [[[a0 a1] c]|] eqn:Hfind; [|done].
  rewrite Message_set_Message.
  rewrite rule_of_key in Hrule.
  destruct (registered_pattern_resumes _ _ _ _ _ _ _ Hrule Hfind) as [Hlt _].
  destruct (doExecute_span _ _ _ _ _ _ Hfind) as (_ & _ & Hlen).
  destruct (ReplaceAllString_first _ _ _ _ _ Hfind) as (rest & Heq & Hsub & _).
  apply sublist_length in Hsub. rewrite length_drop in Hsub.
  rewrite <- !length_chars, Heq, length_app, length_take. lia.
Qed.

(** X3.  The patterns of searchd, jenkins and php-fpm, and the generic one
    when an entry names it as its facility, have no group named Priority:
    an entry whose pattern is found under one of these keys keeps its
    severity, whether the pattern matches or not. *)
Theorem severity_kept_without_priority_group (this : SystemdJournalEntry) :
  rule_key this ∈ ["searchd"; "jenkins"; "php-fpm"; "*"] ->
  Priority (process this) = Priority this.
Proof.
  intros Hkey. rewrite process_priority_exact, rule_of_key.
  assert (Hnone : ∀ re, messageReplace (rule_key this) = Some re ->
                        priority_group re = None).
  { intros re Hre. rewrite !elem_of_cons in Hkey.
    destruct Hkey as [H|[H|[H|[H|H]]]]; [..|by apply elem_of_nil in H];
      rewrite H in Hre; vm_compute in Hre; injection Hre as <-; reflexivity. }
  destruct (messageReplace (rule_key this)) as [re|]; [|done].
  destruct (Regexp.doExecute _ _ _); [|done]. by rewrite (Hnone re eq_refl).
Qed.

Lemma severity_kept_without_priority_group_witness :
  rule_key jenkins_entry ∈ ["searchd"; "jenkins"; "php-fpm"; "*"]
  ∧ Message (process jenkins_entry) = "hudson.model.Run execute"
  ∧ Priority (process jenkins_entry) = Priority jenkins_entry.
Proof.
  assert (H : rule_key jenkins_entry ∈ ["searchd"; "jenkins"; "php-fpm"; "*"])
    by (apply (bool_decide_unpack _); vm_compute; exact I).
  split; [exact H |]. split; [vm_compute; reflexivity |].
  exact (severity_kept_without_priority_group jenkins_entry H).
Defined.

(** ** What the patterns match *)

Section PatternInversion.
Context {A : Type}.
Implicit Types (k : @Regexp.cont A) (s : list ascii) (c : Regexp.caps).

Lemma run_Concat r1 r2 pos s c k :
  Regexp.run (Regexp.Concat r1 r2) pos s c k
  = Regexp.run r1 pos s c (fun pos' s' c' => Regexp.run r2 pos' s' c' k).
Proof. reflexivity. Qed.

Lemma run_Capture i name r pos s c k :
  Regexp.run (Regexp.Capture i name r) pos s c k
  = Regexp.run r pos s c (fun pos' s' c' => k pos' s' ((i, take (pos' - pos) s) :: c')).
Proof. reflexivity. Qed.

Lemma run_Repeat_exact n r pos s c k :
  Regexp.run (Regexp.Repeat n (Some n) r) pos s c k
  = Regexp.times_loop (Regexp.run r) n pos s c k.
Proof.
  cbn [Regexp.run]. rewrite Nat.sub_diag. reflexivity.
Qed.

Lemma times_loop_S step n pos s c k :
  Regexp.times_loop (A := A) step (S n) pos s c k
  = step pos s c (fun pos' s' c' => Regexp.times_loop step n pos' s' c' k).
Proof. reflexivity. Qed.

Lemma times_loop_O step pos s c k :
  Regexp.times_loop (A := A) step 0 pos s c k = k pos s c.
Proof. reflexivity. Qed.

Lemma run_BeginText_inv pos s c k x :
  Regexp.run Regexp.BeginText pos s c k = Some x -> pos = 0 ∧ k pos s c = Some x.
Proof. simpl. destruct (Nat.eqb_spec pos 0); [done | done]. Qed.

Lemma run_Literal_inv a pos s c k x :
  Regexp.run (Regexp.Literal a) pos s c k = Some x ->
  ∃ s', s = a :: s' ∧ k (S pos) s' c = Some x.
Proof.
  simpl. destruct s as [|b s']; [done |].
  destruct (Ascii.eqb_spec b a) as [->|]; [|done]. eauto.
Qed.

Lemma run_CharClass_inv rs pos s c k x :
  Regexp.run (Regexp.CharClass rs) pos s c k = Some x ->
  ∃ b s', s = b :: s' ∧ Regexp.class_has rs b = true ∧ k (S pos) s' c = Some x.
Proof.
  simpl. destruct s as [|b s']; [done |].
  destruct (Regexp.class_has rs b) eqn:E; [|done]. eauto.
Qed.

Lemma run_Quest_inv r pos s c k x :
  Regexp.run (Regexp.Quest r) pos s c k = Some x ->
  Regexp.run r pos s c k = Some x ∨ k pos s c = Some x.
Proof.
  simpl. unfold Regexp.orelse. destruct (Regexp.run r pos s c k); [left | right]; done.
Qed.
End PatternInversion.

(** Peels the atoms of a pattern off the hypothesis of a successful match,
    from the left, up to the first atom that is optional or repeated without
    bound. *)
Ltac peel H :=
  repeat lazymatch type of H with
  | Regexp.run (Regexp.Concat _ _) _ _ _ _ = Some _ => rewrite run_Concat in H
  | Regexp.run (Regexp.Capture _ _ _) _ _ _ _ = Some _ => rewrite run_Capture in H
  | Regexp.run (Regexp.Repeat ?n (Some ?n) _) _ _ _ _ = Some _ =>
      rewrite run_Repeat_exact in H
  | Regexp.times_loop _ (S _) _ _ _ _ = Some _ => rewrite times_loop_S in H
  | Regexp.times_loop _ O _ _ _ _ = Some _ => rewrite times_loop_O in H
  | Regexp.run (Regexp.Literal _) _ _ _ _ = Some _ =>
      apply run_Literal_inv in H as (? & -> & H); cbv beta in H
  | Regexp.run (Regexp.CharClass _) _ _ _ _ = Some _ =>
      apply run_CharClass_inv in H as (? & ? & -> & ? & H); cbv beta in H
  | Regexp.run Regexp.BeginText _ _ _ _ = Some _ =>
      apply run_BeginText_inv in H as (_ & H); cbv beta in H
  end.

Lemma anchored_match_here r src m :
  anchored r = true -> Regexp.doExecute r src 0 = Some m ->
  Regexp.match_here r 0 src = Some m.
Proof.
  intros Ha. unfold Regexp.doExecute. cbn [Nat.leb]. rewrite drop_0, search_unfold.
  destruct (Regexp.match_here r 0 src); [done |].
  destruct src; [done |]. by rewrite anchored_search.
Qed.

(** X4.  The generic pattern removes something only from a message that
    starts with 19 or 20 bytes (the date, the time and one comma or digit)
    followed by the six bytes [{0-3} ]; it then removes these 25 or 26 bytes
    from the front and nothing else.  Every other message is left as it is. *)
Theorem generic_pattern_needs_braces (msg : string) :
  strip_timestamp msg = msg
  ∨ ∃ stamp rest,
      chars msg = stamp ++ chars "{0-3} " ++ rest
      ∧ (length stamp = 19 ∨ length stamp = 20)
      ∧ strip_timestamp msg = text rest.
Proof.
  unfold strip_timestamp.
  destruct (messageReplace "*") as [re|] eqn:Hre; [|by left].
  destruct (Regexp.doExecute re (chars msg) 0) as [[[a0 a1] c]|] eqn:Hfind;
    [|left; by apply ReplaceAllString_no_match].
  right.
  assert (Ha : anchored re = true)
    by (vm_compute in Hre; injection Hre as <-; reflexivity).
  destruct (ReplaceAllString_first _ _ _ _ _ Hfind) as (rest & Heq & _ & Hrest).
  destruct (Hrest Ha) as [-> ->]. rewrite take_0 in Heq. simpl in Heq.
  apply (anchored_match_here _ _ _ Ha) in Hfind.
  rewrite <- (text_chars (Regexp.ReplaceAllString_empty re msg)), Heq.
  clear Heq Hrest Ha.
  remember (chars msg) as s eqn:Hs. clear Hs msg.
  vm_compute in Hre. injection Hre as <-.
  unfold Regexp.match_here in Hfind. peel Hfind.
  apply run_Quest_inv in Hfind as [Hq|Hq]; peel Hq; injection Hq as <- <-.
  - eexists [_; _; _; _; _; _; _; _; _; _; _; _; _; _; _; _; _; _; _; _], _.
    split; [reflexivity |]. split; [by right | reflexivity].
  - eexists [_; _; _; _; _; _; _; _; _; _; _; _; _; _; _; _; _; _; _], _.
    split; [reflexivity |]. split; [by left | reflexivity].
Qed.

(** The second case does occur. *)
Lemma generic_pattern_matches_braces : strip_timestamp braces_message = "started".
Proof. vm_compute. reflexivity. Qed.

(** X5.  The syncthing pattern only matches lines that carry the word INFO,
    so a syncthing entry either is left as the generic pattern left it or
    gets the severity 6, whatever PRIORITY the line had. *)
Theorem syncthing_severity (this : SystemdJournalEntry) :
  rule_key this = "syncthing" ->
  Priority (process this) = 6%Z
  ∨ process this = set_Message (strip_timestamp (Message this)) this.
Proof.
  intros Hkey.
  pose proof (rule_of_key this) as Hrule. rewrite Hkey in Hrule.
  destruct (messageReplace "syncthing") as [re|] eqn:Hre; [|by vm_compute in Hre].
  rewrite process_priority_exact, process_unfold, Hrule. cbv zeta.
  destruct (Regexp.doExecute re (chars (strip_timestamp (Message this))) 0)
    as [[[a0 a1] c]|] eqn:Hfind; [left | by right].
  assert (Ha : anchored re = true)
    by (vm_compute in Hre; injection Hre as <-; reflexivity).
  apply (anchored_match_here _ _ _ Ha) in Hfind.
  remember (chars (strip_timestamp (Message this))) as s eqn:Hs. clear Hs Hrule Ha.
  vm_compute in Hre. injection Hre as <-.
  unfold Regexp.match_here in Hfind. peel Hfind.
  injection Hfind as <- <- <-. vm_compute. reflexivity.
Qed.

Lemma syncthing_severity_witness :
  rule_key syncthing_entry = "syncthing"
  ∧ Priority syncthing_entry = 3%Z
  ∧ Message (process syncthing_entry) = "Ready to synchronize"
  ∧ (Priority (process syncthing_entry) = 6%Z
     ∨ process syncthing_entry
       = set_Message (strip_timestamp (Message syncthing_entry)) syncthing_entry).
Proof.
  assert (H : rule_key syncthing_entry = "syncthing") by (vm_compute; reflexivity).
  split; [exact H |]. split; [reflexivity |]. split; [vm_compute; reflexivity |].
  exact (syncthing_severity syncthing_entry H).
Defined.

(** ** [toGelf] *)

Lemma take_string_frame key fld this (extra : gmap string Json.value) this' extra' :
  take_string key fld (this, extra) = Returns (this', extra') ->
  (this' = this ∧ extra' = extra ∧ extra !! key = None)
  ∨ ∃ v, extra !! key = Some (Json.Str v)
         ∧ this' = set_string fld v this ∧ extra' = delete key extra.
Proof.
  unfold take_string. destruct (extra !! key) as [[| | |v| |]|]; try done.
  - intros [= <- <-]. right. by exists v.
  - intros [= <- <-]. by left.
Qed.

(** A text that starts with a brace is read as an object or not at all. *)
Lemma json_shaped_object this v :
  isJsonMessage this = true -> Json.parse (Message this) = Some v ->
  ∃ ms, v = Json.Obj ms.
Proof.
  unfold isJsonMessage, Json.parse.
  destruct (chars (Message this)) as [|c0 [|c1 l]]; try (by rewrite andb_false_r).
  intros [_ [->%Ascii.eqb_eq ->%Ascii.eqb_eq]%andb_true_iff]%andb_true_iff.
  unfold dq.
  cbn [Json.parse_value Json.skip_ws Json.is_ws Ascii.eqb Bool.eqb orb andb
       Json.maxNestingDepth N.leb N.compare].
  destruct (Json.parse_members _ _ _) as [[ms r]|]; [|done].
  cbn [mbind option_bind]. destruct (Json.skip_ws r); [|done].
  intros [= <-]. by exists ms.
Qed.

Lemma forallb_negb {A} (f : A -> bool) l :
  forallb (fun x => negb (f x)) l = negb (existsb f l).
Proof.
  induction l as [|x l IH]; simpl; [done |]. rewrite IH. by destruct (f x).
Qed.

(** What the decoder does with a message that is JSON-shaped. *)
Lemma Unmarshal_map_shaped this (extra : gmap string Json.value) :
  isJsonMessage this = true ->
  Unmarshal_map (Message this) extra
  = match Json.parse (Message this) with
    | Some (Json.Obj ms) =>
        (negb (existsb (fun kv => Json.out_of_range kv.2) ms),
         foldl (fun m kv => <[kv.1 := Json.stored kv.2]> m) extra ms)
    | _ => (false, extra)
    end.
Proof.
  intros Hshape. unfold Unmarshal_map.
  destruct (Json.parse (Message this)) as [v|] eqn:E; [|done].
  destruct (json_shaped_object this v Hshape E) as [ms ->].
  by rewrite forallb_negb.
Qed.

Lemma expand_message_frame this (extra : gmap string Json.value) this' extra' :
  expand_message this extra = Returns (this', extra') ->
  this' = set_FullMessage (FullMessage this') (set_Message (Message this') this).
Proof.
  unfold expand_message. destruct (isJsonMessage this).
  - destruct (Unmarshal_map (Message this) extra) as [[|] extra1];
      [|intros [= <- <-]; by destruct this].
    destruct (take_string "Message" F_Message (this, extra1)) as [[this1 extra2]|] eqn:E1;
      [|done].
    intros E2.
    apply take_string_frame in E1 as [(-> & _ & _)|(v1 & _ & -> & _)];
      apply take_string_frame in E2 as [(-> & _ & _)|(v2 & _ & -> & _)];
      by destruct this.
  - destruct (negb _); intros [= <- <-]; by destruct this.
Qed.

(** X6.  [toGelf] assigns the message and the full message of the entry and
    no other field, and the envelope carries the version 1.1, the host name,
    the time, the severity and the facility of the entry it was given (the
    syslog identifier, or the command name when that is empty), with the
    message and the full message the call has left in the entry. *)
Theorem toGelf_envelope (this this' : SystemdJournalEntry) (g : GelfMessage) :
  toGelf this = Returns (this', g) ->
  this' = set_FullMessage (FullMessage this') (set_Message (Message this') this)
  ∧ Version g = "1.1"
  ∧ Host g = Hostname this
  ∧ Short g = Message this'
  ∧ Full g = FullMessage this'
  ∧ TimeUnix g = Realtime_timestamp this
  ∧ Level g = Priority this
  ∧ Facility g = (if String.eqb "" (Syslog_identifier this)
                  then Comm this else Syslog_identifier this).
Proof.
  unfold toGelf.
  destruct (expand_message this (extra_of this)) as [[this1 extra1]|] eqn:E; [|done].
  intros [= <- <-]. apply expand_message_frame in E.
  split; [exact E |]. cbn [Version Host Short Full TimeUnix Level Facility].
  rewrite E. by destruct this.
Qed.

Lemma toGelf_envelope_witness :
  ∃ this' g,
    toGelf object_entry = Returns (this', g)
    ∧ this' = set_FullMessage (FullMessage this') (set_Message (Message this') object_entry)
    ∧ Version g = "1.1"
    ∧ Host g = Hostname object_entry
    ∧ Short g = Message this'
    ∧ Full g = FullMessage this'
    ∧ TimeUnix g = Realtime_timestamp object_entry
    ∧ Level g = Priority object_entry
    ∧ Facility g = (if String.eqb "" (Syslog_identifier object_entry)
                    then Comm object_entry else Syslog_identifier object_entry).
Proof.
  destruct (toGelf object_entry) as [[this' g]|] eqn:E; [|by vm_compute in E].
  exists this', g. split; [reflexivity |].
  exact (toGelf_envelope object_entry this' g E).
Defined.


Lemma extra_of_reserved this :
  extra_of this !! "Message" = None ∧ extra_of this !! "FullMessage" = None.
Proof. split; reflexivity. Qed.

Lemma take_string_lookup key fld this (extra : gmap string Json.value) this' extra' k :
  take_string key fld (this, extra) = Returns (this', extra') ->
  extra' !! key = None ∧ (k ≠ key -> extra' !! k = extra !! k).
Proof.
  intros [(_ & -> & Hnone)|(v & _ & _ & ->)]%take_string_frame.
  - done.
  - split; [apply lookup_delete_eq | intros Hne; by apply lookup_delete_ne].
Qed.






Lemma take_string_panics key fld this (extra : gmap string Json.value) :
  take_string key fld (this, extra) = Panics
  ↔ ∃ v, extra !! key = Some v ∧ is_str v = false.
Proof.
  unfold take_string. destruct (extra !! key) as [v|].
  - destruct v; simpl; split; try done; try (intros _; by eexists);
      by intros (v & [= <-] & ?).
  - split; [done | by intros (v & ? & _)].
Qed.

(** X9.  [toGelf] panics exactly when the message is JSON-shaped, decodes
    without an error to an object, and the object has a member Message or a
    member FullMessage that is not a string (a number, a boolean, null, an
    array or an object).  When the decoder reports an error, here for a
    number out of the range of a float64, the members are not looked at and
    there is no panic. *)
Theorem toGelf_panics_iff (this : SystemdJournalEntry) :
  toGelf this = Panics
  ↔ isJsonMessage this = true
    ∧ ∃ ms, Json.parse (Message this) = Some (Json.Obj ms)
            ∧ existsb (fun kv => Json.out_of_range kv.2) ms = false
            ∧ ((∃ v, member "Message" ms = Some v ∧ is_str v = false)
               ∨ (∃ v, member "FullMessage" ms = Some v ∧ is_str v = false)).
Proof.
  destruct (extra_of_reserved this) as [Hm Hf].
  unfold toGelf, expand_message.
  destruct (isJsonMessage this) eqn:Hshape;
    [|split; [by destruct (negb _) | by intros [? _]]].
  rewrite Unmarshal_map_shaped by done.
  destruct (Json.parse (Message this)) as [[| | | | |ms]|];
    try (split; [done | by intros (_ & ms & ? & _)]).
  destruct (existsb _ ms) eqn:Hrange; cbn [negb];
    [split; [done | intros (_ & ms' & [= <-] & Hr & _); by rewrite Hrange in Hr] |].
  assert (Hstored : ∀ key v, member key ms = Some v -> Json.stored v = v).
  { intros key v. apply member_in_range. by rewrite forallb_negb, Hrange. }
  set (extra1 := foldl _ _ ms).
  assert (H1 : extra1 !! "Message" = member "Message" ms).
  { unfold extra1. rewrite lookup_stored_members, Hm.
    destruct (member "Message" ms) as [v|] eqn:E; [|done].
    by rewrite (Hstored _ _ E). }
  assert (H2 : extra1 !! "FullMessage" = member "FullMessage" ms).
  { unfold extra1. rewrite lookup_stored_members, Hf.
    destruct (member "FullMessage" ms) as [v|] eqn:E; [|done].
    by rewrite (Hstored _ _ E). }
  destruct (take_string "Message" F_Message (this, extra1)) as [[this2 extra2]|] eqn:E1.
  - assert (H3 : extra2 !! "FullMessage" = member "FullMessage" ms).
    { rewrite (proj2 (take_string_lookup _ _ _ _ _ _ "FullMessage" E1)) by done.
      exact H2. }
    assert (HnoM : ¬ ∃ v, member "Message" ms = Some v ∧ is_str v = false).
    { rewrite <- H1. intros Hp.
      apply (take_string_panics "Message" F_Message this extra1) in Hp.
      by rewrite Hp in E1. }
    destruct (take_string "FullMessage" F_FullMessage (this2, extra2))
      as [[this3 extra3]|] eqn:E2.
    + split; [done |]. intros (_ & ms' & [= <-] & _ & [Hp|Hp]); [done |].
      rewrite <- H3 in Hp.
      apply (take_string_panics "FullMessage" F_FullMessage this2 extra2) in Hp.
      by rewrite Hp in E2.
    + split; [|done]. intros _. split; [done |]. exists ms. split_and!; try done.
      right. rewrite <- H3. by apply take_string_panics in E2.
  - split; [|done]. intros _. split; [done |]. exists ms. split_and!; try done.
    left. rewrite <- H1. by apply take_string_panics in E1.
Qed.

Lemma Index_first_line s sep : Index (Split_first s sep) sep = (-1)%Z.
Proof.
  destruct (Index_spec (Split_first s sep) sep) as [[H _]|[_ H]]; [done |].
  by destruct (proj1 (Split_first_spec s sep)).
Qed.

(** For a message that is not JSON-shaped a second conversion changes
    nothing. *)
Lemma toGelf_plain_again (this this' : SystemdJournalEntry) (g : GelfMessage) :
  isJsonMessage this = false ->
  toGelf this = Returns (this', g) ->
  isJsonMessage this' = false ∧ toGelf this' = Returns (this', g).
Proof.
  intros Hshape. unfold toGelf at 1. unfold expand_message. rewrite Hshape.
  destruct (Index_spec (chars (Message this)) lf) as [[Hi _]|[Hi _]].
  - rewrite Hi. cbn [Z.eqb negb Pos.eqb]. intros [= <- <-].
    split; [done |]. unfold toGelf, expand_message. by rewrite Hshape, Hi.
  - destruct (Z.eqb_spec (Index (chars (Message this)) lf) (-1)) as [?|_]; [lia |].
    cbn [negb]. intros [= <- <-].
    change (Message (set_FullMessage (Message this) this)) with (Message this).
    pose proof (first_line_not_JSON_shaped this
                  (set_FullMessage (Message this) this) Hshape) as Hshape'.
    split; [exact Hshape' |].
    unfold toGelf, expand_message. rewrite Hshape'.
    rewrite Message_set_Message, chars_text, Index_first_line. reflexivity.
Qed.

(** X10.  For a message that is not JSON-shaped, converting the entry again
    changes nothing, however often: every further conversion returns the
    entry that the first has left, which is still not JSON-shaped, with the
    same envelope.  So every retry of such an entry hands over the same
    envelope. *)
Theorem toGelf_plain_stable (this this' : SystemdJournalEntry) (g : GelfMessage) :
  isJsonMessage this = false ->
  toGelf this = Returns (this', g) ->
  isJsonMessage this' = false
  ∧ ∀ n, Nat.iter n toGelf_again (toGelf this) = Returns (this', g).
Proof.
  intros Hshape Hconv.
  destruct (toGelf_plain_again this this' g Hshape Hconv) as [Hshape' Hconv'].
  split; [exact Hshape' |].
  induction n as [|n IH]; [exact Hconv |].
  cbn [Nat.iter nat_rect]. unfold Nat.iter in IH. rewrite IH. exact Hconv'.
Qed.

Lemma toGelf_plain_stable_witness :
  ∃ this' g,
    isJsonMessage two_line_entry = false
    ∧ toGelf two_line_entry = Returns (this', g)
    ∧ isJsonMessage this' = false
    ∧ ∀ n, Nat.iter n toGelf_again (toGelf two_line_entry) = Returns (this', g).
Proof.
  assert (H : isJsonMessage two_line_entry = false) by (vm_compute; reflexivity).
  destruct (toGelf two_line_entry) as [[this' g]|] eqn:E; [|by vm_compute in E].
  exists this', g. split; [exact H |]. split; [reflexivity |].
  pose proof (toGelf_plain_stable two_line_entry this' g H E) as Hstable.
  rewrite E in Hstable. exact Hstable.
Defined.

(** ** [send] *)

Lemma retry_events_shift g err n :
  retry_events g err (S n)
  = retry_events g (fun i => err (S i)) n ++ retry_events g err 1.
Proof.
  induction n as [|n IH]; [done |].
  change (retry_events g err (S (S n)))
    with (Slept SLEEP_AFTER_ERROR
            :: Stderr ("Processing paused because of: " +:+ err (S n))
            :: WriteFailed g (err (S n)) :: retry_events g err (S n)).
  rewrite IH. reflexivity.
Qed.

(** X11.  For an entry whose message is not JSON-shaped, when the transport
    refuses the envelope [N] times and then takes it, [send] returns the
    entry as the first conversion left it, and what it has done is exactly
    this, in this order: [N] times a failed write of that same envelope, a
    line on the error stream that starts with Processing paused because of
    and gives the error, and a sleep of 15 seconds; then the one write that
    succeeds. *)
Theorem send_plain_trace transport (N : nat) (err : nat -> string)
    (this this1 : SystemdJournalEntry) (g : GelfMessage) (w : World) :
  isJsonMessage this = false ->
  toGelf this = Returns (this1, g) ->
  (∀ i, i < N -> transport (calls w + i) g = Some (err i)) ->
  transport (calls w + N) g = None ->
  ∀ fuel, N < fuel ->
    send transport fuel this w
    = Some (Returns (this1, {| calls := calls w + S N;
                               trace := Wrote g :: retry_events g err N ++ trace w |})).
Proof.
  revert err this w.
  induction N as [|N IH]; intros err this w Hshape Hconv Hfail Hok fuel Hfuel;
    (destruct fuel as [|fuel]; [lia |]); cbn [send]; rewrite Hconv; unfold WriteMessage.
  - rewrite Nat.add_0_r in Hok. rewrite Hok. do 3 f_equal. f_equal. lia.
  - pose proof (Hfail 0 ltac:(lia)) as Herr. rewrite Nat.add_0_r in Herr. rewrite Herr.
    destruct (toGelf_plain_again _ _ _ Hshape Hconv) as [Hshape1 Hconv1].
    rewrite (IH (fun i => err (S i)) this1 _ Hshape1 Hconv1); cbn [emit calls trace].
    + rewrite retry_events_shift, <- (assoc_L (++)). do 3 f_equal. f_equal. lia.
    + intros i Hi. replace (S (calls w) + i) with (calls w + S i) by lia.
      apply Hfail. lia.
    + replace (S (calls w) + N) with (calls w + S N) by lia. exact Hok.
    + lia.
Qed.

Lemma send_plain_trace_witness :
  ∃ this1 g,
    isJsonMessage two_line_entry = false
    ∧ toGelf two_line_entry = Returns (this1, g)
    ∧ (∀ i, i < 2 -> fails_first 2 (calls fresh_world + i) g = Some "connection refused")
    ∧ fails_first 2 (calls fresh_world + 2) g = None
    ∧ 2 < 3
    ∧ send (fails_first 2) 3 two_line_entry fresh_world
      = Some (Returns (this1,
          {| calls := calls fresh_world + 3;
             trace := Wrote g :: retry_events g (fun _ => "connection refused") 2
                        ++ trace fresh_world |})).
Proof.
  assert (H1 : isJsonMessage two_line_entry = false) by (vm_compute; reflexivity).
  destruct (toGelf two_line_entry) as [[this1 g]|] eqn:E; [|by vm_compute in E].
  assert (H2 : ∀ i, i < 2 ->
            fails_first 2 (calls fresh_world + i) g = Some "connection refused").
  { intros i Hi. unfold fails_first. simpl. by destruct (Nat.ltb_spec i 2); [|lia]. }
  assert (H3 : fails_first 2 (calls fresh_world + 2) g = None) by reflexivity.
  assert (H4 : 2 < 3) by lia.
  exists this1, g. split; [exact H1 |]. split; [reflexivity |].
  split; [exact H2 |]. split; [exact H3 |]. split; [exact H4 |].
  exact (send_plain_trace (fails_first 2) 2 (fun _ => "connection refused")
           two_line_entry this1 g fresh_world H1 E H2 H3 3 H4).
Defined.

(** X12.  [send] has no limit on its retries and never drops the entry:
    for a message that is not JSON-shaped and a transport that refuses the
    envelope on every call, no number of turns makes the call return. *)
Theorem send_never_gives_up transport (this this1 : SystemdJournalEntry)
    (g : GelfMessage) :
  isJsonMessage this = false ->
  toGelf this = Returns (this1, g) ->
  (∀ i, is_Some (transport i g)) ->
  ∀ fuel w, send transport fuel this w = None.
Proof.
  intros Hshape Hconv Hfail fuel. revert this Hshape Hconv.
  induction fuel as [|fuel IH]; intros this Hshape Hconv w; [done |].
  cbn [send]. rewrite Hconv. unfold WriteMessage.
  destruct (Hfail (calls w)) as [err ->].
  destruct (toGelf_plain_again _ _ _ Hshape Hconv) as [Hshape1 Hconv1].
  by apply IH.
Qed.

Lemma send_never_gives_up_witness :
  ∃ this1 g,
    isJsonMessage two_line_entry = false
    ∧ toGelf two_line_entry = Returns (this1, g)
    ∧ (∀ i, is_Some (always_fails i g))
    ∧ ∀ fuel w, send always_fails fuel two_line_entry w = None.
Proof.
  assert (H1 : isJsonMessage two_line_entry = false) by (vm_compute; reflexivity).
  destruct (toGelf two_line_entry) as [[this1 g]|] eqn:E; [|by vm_compute in E].
  assert (H2 : ∀ i, is_Some (always_fails i g)) by (intros i; by eexists).
  exists this1, g. split; [exact H1 |]. split; [reflexivity |]. split; [exact H2 |].
  exact (send_never_gives_up always_fails two_line_entry this1 g H1 E H2).
Defined.

(** ** The two tasks, further *)

(** X13.  The two tasks are never between [Lock] and [Unlock] together, and
    the lock is held exactly by the task that is there: by the main task
    from its test of the slot to its [Unlock], the [send] of an evicted
    occupant included, and by [writePendingEntry] while it takes the entry
    out of the slot. *)
Theorem tasks_exclude_each_other transport scan_error lines s :
  reachable transport scan_error lines s ->
  ¬ (main_in_section (main_at s) = true ∧ flusher_in_section (flusher_at s) = true)
  ∧ (pending_lock s = Some Main ↔ main_in_section (main_at s) = true)
  ∧ (pending_lock s = Some Flusher ↔ flusher_in_section (flusher_at s) = true)
  ∧ (pending_lock s = None
     ↔ main_in_section (main_at s) = false ∧ flusher_in_section (flusher_at s) = false).
Proof.
  intros [Hlock Hexcl]%lock_invariant_reachable.
  rewrite Hlock. unfold lock_of.
  destruct (main_in_section (main_at s)), (flusher_in_section (flusher_at s));
    try done; split_and!; try done; try (split; [done | by intros [? ?]]);
    by intros [? ?].
Qed.

Lemma tasks_exclude_each_other_witness :
  reachable reliable None [nginx_line; nginx_line] eviction_state
  ∧ ¬ (main_in_section (main_at eviction_state) = true
       ∧ flusher_in_section (flusher_at eviction_state) = true)
  ∧ (pending_lock eviction_state = Some Main
     ↔ main_in_section (main_at eviction_state) = true)
  ∧ (pending_lock eviction_state = Some Flusher
     ↔ flusher_in_section (flusher_at eviction_state) = true)
  ∧ (pending_lock eviction_state = None
     ↔ main_in_section (main_at eviction_state) = false
       ∧ flusher_in_section (flusher_at eviction_state) = false).
Proof.
  split; [exact eviction_state_reachable |].
  exact (tasks_exclude_each_other reliable None [nginx_line; nginx_line]
           eviction_state eviction_state_reachable).
Defined.

Lemma flusher_invariant_step transport scan_error s s' :
  step transport scan_error s s' -> flusher_invariant s -> flusher_invariant s'.
Proof.
  unfold flusher_invariant.
  intros [H|H]; inversion H; subst; cbn; try done;
    repeat match goal with f : flush_pc |- _ => destruct f end; cbn; try done.
Qed.

(** X14.  [writePendingEntry] tests the slot without the lock, and still
    never calls [send] on a nil entry: between its test and its taking of
    the entry the slot can be given another occupant but cannot become
    empty. *)
Theorem flusher_never_sends_nil transport scan_error lines s :
  reachable transport scan_error lines s ->
  (∀ p, flusher_at s = F_Send p ∨ flusher_at s = F_Unlock p -> p ≠ None)
  ∧ (flusher_at s = F_Lock ∨ flusher_at s = F_Locked -> pending_entry s ≠ None).
Proof.
  intros Hreach.
  assert (Hinv : flusher_invariant s).
  { induction Hreach as [|s s' _ IH Hstep]; [done |].
    by eapply flusher_invariant_step. }
  unfold flusher_invariant in Hinv. split.
  - intros p [H|H]; by rewrite H in Hinv.
  - intros [H|H]; by rewrite H in Hinv.
Qed.

(** [process] leaves the time of the entry alone, so the entry is as stale
    after it as before. *)
Lemma stale_process now e : stale now (process e) = stale now e.
Proof. unfold stale. by rewrite (process_frame e). Qed.

(** A run of the program on one line: the entry is placed, the lines end,
    the main task enters its last [send], and [writePendingEntry] then finds
    the entry still in the slot, stale at the reading [now] of the clock,
    and takes it. *)
Lemma double_send_reachable line e now :
  Unmarshal_entry line = Decoded e ->
  is_int64 now = true ->
  stale now e = true ->
  reachable reliable None [line] (double_send_state (process e)).
Proof.
  intros Hline Hnow Hstale. unfold double_send_state.
  eapply reach_step; [|right; eapply flusher_unlock with (lock := Some Flusher)].
  eapply reach_step; [|right; apply drain].
  eapply reach_step; [|right; apply flusher_lock].
  eapply reach_step;
    [|right; apply test_stale with (now := now); [done | by rewrite stale_process]].
  eapply reach_step; [|right; apply flusher_wakes].
  eapply reach_step; [|left; apply final_call].
  eapply reach_step; [|left; by apply scanner_ok].
  eapply reach_step; [|left; apply scan_end].
  eapply reach_step; [|left; apply main_sleep].
  eapply reach_step; [|left; eapply main_unlock with (lock := Some Main)].
  eapply reach_step; [|left; apply place].
  eapply reach_step; [|left; apply main_lock].
  eapply reach_step; [|left; by apply scan_entry].
  apply reach_initial.
Qed.

Lemma flusher_never_sends_nil_witness :
  reachable reliable None [nginx_line] (double_send_state (process nginx_entry))
  ∧ flusher_at (double_send_state (process nginx_entry))
    = F_Send (Some (process nginx_entry))
  ∧ (∀ p, flusher_at (double_send_state (process nginx_entry)) = F_Send p
          ∨ flusher_at (double_send_state (process nginx_entry)) = F_Unlock p ->
          p ≠ None)
  ∧ (flusher_at (double_send_state (process nginx_entry)) = F_Lock
     ∨ flusher_at (double_send_state (process nginx_entry)) = F_Locked ->
     pending_entry (double_send_state (process nginx_entry)) ≠ None).
Proof.
  assert (Hline : Unmarshal_entry nginx_line = Decoded nginx_entry)
    by (vm_compute; reflexivity).
  pose proof (double_send_reachable nginx_line nginx_entry sample_clock Hline
                eq_refl eq_refl) as H.
  split; [exact H |]. split; [reflexivity |].
  exact (flusher_never_sends_nil reliable None [nginx_line] _ H).
Defined.




Lemma scan_failed_step transport err s s' :
  step transport (Some err) s s' ->
  scan_failed_invariant err s -> scan_failed_invariant err s'.
Proof.
  unfold scan_failed_invariant.
  intros [H|H]; inversion H; subst; cbn; intros [Hmain Hstate]; try done.
  match goal with H : Some _ = Some _ |- _ => by injection H as -> end.
Qed.

(** X16.  When the scanner ends with an error, the main task never comes to
    its last statement: the program ends with the status 1, its last act
    being the report of the error, and the occupant of the slot, if there is
    one, is not sent by the main task. *)
Theorem scanner_error_skips_final_flush transport err lines s :
  reachable transport (Some err) lines s ->
  main_at s ≠ M_Final
  ∧ (∀ occupant, main_at s ≠ M_FinalSend occupant)
  ∧ (∀ code, state s = Exited code ->
       code = 1%Z
       ∧ head (trace (world s)) = Some (Stderr ("Error from Scanner: " +:+ err))).
Proof.
  intros Hreach.
  assert (Hinv : scan_failed_invariant err s).
  { induction Hreach as [|s s' _ IH Hstep]; [done |].
    by eapply scan_failed_step. }
  destruct Hinv as [Hmain Hstate]. split_and!.
  - intros H. by rewrite H in Hmain.
  - intros occupant H. by rewrite H in Hmain.
  - intros code H. by rewrite H in Hstate.
Qed.

Lemma scan_failed_state_reachable :
  reachable reliable (Some "read |0: file already closed") [nginx_line]
    scan_failed_state.
Proof.
  assert (Hline : Unmarshal_entry nginx_line = Decoded nginx_entry)
    by (vm_compute; reflexivity).
  unfold scan_failed_state.
  eapply reach_step; [|left; by apply scanner_failed].
  eapply reach_step; [|left; apply scan_end].
  eapply reach_step; [|left; apply main_sleep].
  eapply reach_step; [|left; eapply main_unlock with (lock := Some Main)].
  eapply reach_step; [|left; apply place].
  eapply reach_step; [|left; apply main_lock].
  eapply reach_step; [|left; by apply scan_entry].
  apply reach_initial.
Qed.

Lemma scanner_error_skips_final_flush_witness :
  reachable reliable (Some "read |0: file already closed") [nginx_line]
    scan_failed_state
  ∧ pending_entry scan_failed_state = Some (process nginx_entry)
  ∧ state scan_failed_state = Exited 1
  ∧ main_at scan_failed_state ≠ M_Final
  ∧ (∀ occupant, main_at scan_failed_state ≠ M_FinalSend occupant)
  ∧ (∀ code, state scan_failed_state = Exited code ->
       code = 1%Z
       ∧ head (trace (world scan_failed_state))
         = Some (Stderr ("Error from Scanner: " +:+ "read |0: file already closed"))).
Proof.
  split; [exact scan_failed_state_reachable |]. split; [reflexivity |].
  split; [reflexivity |].
  exact (scanner_error_skips_final_flush reliable _ _ _ scan_failed_state_reachable).
Defined.

(** ** Lines *)

(** X17.  A line that is no JSON text, or a JSON text that is neither an
    object nor null, is skipped in silence: the main task goes on to the
    next line, and the slot, the lock, the other task and the world, error
    stream included, are as they were. *)
Theorem malformed_line_is_skipped transport scan_error
    slot lock f line lines w s' :
  match Json.parse line with
  | Some (Json.Obj _) | Some Json.Null => False
  | _ => True
  end ->
  main_step transport scan_error (St slot lock M_Scan f (line :: lines) w Running) s' ->
  s' = St slot lock M_Scan f lines w Running.
Proof.
  intros Hline Hstep.
  assert (Herr : Unmarshal_entry line = DecodeError).
  { unfold Unmarshal_entry. by destruct (Json.parse line) as [[| | | | |ms]|]. }
  inversion Hstep; subst; [done | congruence | congruence].
Qed.

Lemma malformed_line_is_skipped_witness :
  match Json.parse array_line with
  | Some (Json.Obj _) | Some Json.Null => False
  | _ => True
  end
  ∧ main_step reliable None (St None None M_Scan F_Sleep [array_line] fresh_world Running)
      (St None None M_Scan F_Sleep [] fresh_world Running)
  ∧ St None None M_Scan F_Sleep [] fresh_world Running
    = St None None M_Scan F_Sleep [] fresh_world Running.
Proof.
  assert (H1 : match Json.parse array_line with
               | Some (Json.Obj _) | Some Json.Null => False
               | _ => True
               end) by (vm_compute; exact I).
  assert (H2 : main_step reliable None
                 (St None None M_Scan F_Sleep [array_line] fresh_world Running)
                 (St None None M_Scan F_Sleep [] fresh_world Running))
    by (apply scan_skip; vm_compute; reflexivity).
  split; [exact H1 |]. split; [exact H2 |].
  exact (malformed_line_is_skipped reliable None None None F_Sleep array_line []
           fresh_world _ H1 H2).
Defined.

(** X18.  A line that is the JSON text null is no error for the decoder,
    which sets the entry pointer to nil; [process] then reads a field of the
    nil entry, and the program ends in a panic. *)
Theorem null_line_panics transport scan_error slot lock f line lines w s' :
  Json.parse line = Some Json.Null ->
  main_step transport scan_error (St slot lock M_Scan f (line :: lines) w Running) s' ->
  state s' = Panicked.
Proof.
  intros Hline Hstep.
  assert (Hnil : Unmarshal_entry line = DecodedNil).
  { unfold Unmarshal_entry. by rewrite Hline. }
  inversion Hstep; subst; [congruence | done | congruence].
Qed.

Lemma null_line_panics_witness :
  Json.parse " null" = Some Json.Null
  ∧ main_step reliable None (St None None M_Scan F_Sleep [" null"] fresh_world Running)
      (St None None M_Scan F_Sleep [] fresh_world Panicked)
  ∧ state (St None None M_Scan F_Sleep [] fresh_world Panicked) = Panicked.
Proof.
  assert (H1 : Json.parse " null" = Some Json.Null) by (vm_compute; reflexivity).
  assert (H2 : main_step reliable None
                 (St None None M_Scan F_Sleep [" null"] fresh_world Running)
                 (St None None M_Scan F_Sleep [] fresh_world Panicked))
    by (apply scan_nil; vm_compute; reflexivity).
  split; [exact H1 |]. split; [exact H2 |].
  exact (null_line_panics reliable None None None F_Sleep " null" [] fresh_world _ H1 H2).
Defined.

Lemma store_member_wrong_type key v e :
  is_Some (find_field key) -> is_str v = false -> v ≠ Json.Null ->
  store_member key v e = None.
Proof.
  intros [fld Hfld] Hstr Hnull. unfold store_member. rewrite Hfld.
  destruct fld, v; done.
Qed.

Lemma store_members_fail key v ms :
  (key, v) ∈ ms -> (∀ e, store_member key v e = None) ->
  ∀ e, store_members ms e = None.
Proof.
  intros Hin Hfail. induction ms as [|[k v0] ms IH]; intros e.
  - by apply elem_of_nil in Hin.
  - cbn [store_members]. apply elem_of_cons in Hin as [[= <- <-]|Hin].
    + by rewrite Hfail.
    + destruct (store_member k v0 e); [by apply IH | done].
Qed.

(** X19.  Every field of the entry is read from a JSON string: a line in
    which a key of the entry (MESSAGE, PRIORITY, _PID, ...) carries a number,
    a boolean, an array or an object is dropped whole, whatever its other
    members. *)
Theorem field_of_wrong_type_drops_line line ms key v :
  Json.parse line = Some (Json.Obj ms) ->
  (key, v) ∈ ms ->
  is_Some (find_field key) ->
  is_str v = false ->
  v ≠ Json.Null ->
  Unmarshal_entry line = DecodeError.
Proof.
  intros Hparse Hin Hfld Hstr Hnull. unfold Unmarshal_entry. rewrite Hparse.
  rewrite (store_members_fail key v ms Hin); [done |].
  intros e. by apply store_member_wrong_type.
Qed.

Lemma field_of_wrong_type_drops_line_witness :
  Json.parse unquoted_priority_line = Some (Json.Obj unquoted_priority_members)
  ∧ ("PRIORITY", Json.Number "6") ∈ unquoted_priority_members
  ∧ is_Some (find_field "PRIORITY")
  ∧ is_str (Json.Number "6") = false
  ∧ Json.Number "6" ≠ Json.Null
  ∧ Unmarshal_entry unquoted_priority_line = DecodeError.
Proof.
  assert (H1 : Json.parse unquoted_priority_line
               = Some (Json.Obj unquoted_priority_members)) by (vm_compute; reflexivity).
  assert (H2 : ("PRIORITY", Json.Number "6") ∈ unquoted_priority_members)
    by (unfold unquoted_priority_members; rewrite !elem_of_cons; right; by left).
  assert (H3 : is_Some (find_field "PRIORITY")) by (by eexists).
  assert (H4 : is_str (Json.Number "6") = false) by reflexivity.
  assert (H5 : Json.Number "6" ≠ Json.Null) by discriminate.
  split; [exact H1 |]. split; [exact H2 |]. split; [exact H3 |].
  split; [exact H4 |]. split; [exact H5 |].
  exact (field_of_wrong_type_drops_line unquoted_priority_line
           unquoted_priority_members "PRIORITY" (Json.Number "6") H1 H2 H3 H4 H5).
Defined.

Lemma store_members_app ms1 ms2 e :
  store_members (ms1 ++ ms2) e = store_members ms1 e ≫= store_members ms2.
Proof.
  revert e. induction ms1 as [|[k v] ms1 IH]; intros e; [done |].
  cbn [app store_members]. destruct (store_member k v e); [apply IH | done].
Qed.

Lemma store_member_numbers key v e e' :
  store_member key v e = Some e' ->
  int32 (Priority e) ∧ int64 (Realtime_timestamp e) ->
  int32 (Priority e') ∧ int64 (Realtime_timestamp e').
Proof.
  unfold store_member.
  destruct (find_field key) as [[fld|fld]|]; [| |by intros [= <-]].
  - destruct v; try done; by intros [= <-].
  - destruct v as [| | |s| |]; try done; try by intros [= <-].
    destruct (String.eqb s "null"); [by intros [= <-] |].
    destruct (quoted_int _ s) as [n|] eqn:E; [|done]. simpl. intros [= <-].
    apply quoted_int_range in E. intros [H1 H2]. by destruct fld.
Qed.

Lemma store_members_numbers ms : ∀ e e',
  store_members ms e = Some e' ->
  int32 (Priority e) ∧ int64 (Realtime_timestamp e) ->
  int32 (Priority e') ∧ int64 (Realtime_timestamp e').
Proof.
  induction ms as [|[k v] ms IH]; intros e e'; cbn [store_members].
  - by intros [= <-].
  - destruct (store_member k v e) as [e2|] eqn:E2; [|done]. simpl.
    intros E H0. eapply IH; [exact E |]. by eapply store_member_numbers.
Qed.

(** *** The decimal text of an integer, read back *)

Lemma digit_char k :
  k < 10 ->
  Regexp.is_digit (ascii_of_nat (48 + k)) = true
  ∧ Regexp.digit_val (ascii_of_nat (48 + k)) = k.
Proof.
  intros H. do 10 (destruct k as [|k]; [by vm_compute |]). lia.
Qed.

Lemma decimal_digits_of fuel : ∀ n acc p v,
  (0 <= n < 10 ^ Z.of_nat fuel)%Z -> 0 < fuel ->
  (∀ a, decimal a acc = Some (a * p + v)%Z) ->
  ∃ q, ∀ a, decimal a (digits_of fuel n acc) = Some (a * q + (n * p + v))%Z.
Proof.
  induction fuel as [|fuel IH]; intros n acc p v Hn Hfuel Hacc; [lia |].
  cbn [digits_of]. cbv zeta.
  assert (Hd : (0 <= n mod 10 < 10)%Z) by (apply Z.mod_pos_bound; lia).
  destruct (digit_char (Z.to_nat (n mod 10))) as [Hd1 Hd2]; [lia |].
  assert (Hacc' : ∀ a, decimal a (ascii_of_nat (48 + Z.to_nat (n mod 10)) :: acc)
                       = Some (a * (10 * p) + (n mod 10 * p + v))%Z).
  { intros a. cbn [decimal]. rewrite Hd1, Hd2, Hacc, Z2Nat.id by lia. f_equal. lia. }
  destruct (Z.ltb_spec n 10) as [Hlt|Hge].
  - exists (10 * p)%Z. intros a. rewrite Hacc'. rewrite Z.mod_small by lia. done.
  - destruct fuel as [|fuel']; [simpl in Hn; lia |].
    destruct (IH (n / 10)%Z (ascii_of_nat (48 + Z.to_nat (n mod 10)) :: acc)
                (10 * p)%Z (n mod 10 * p + v)%Z) as [q Hq]; [| lia | exact Hacc' |].
    + split; [apply Z.div_pos; lia |].
      apply Z.div_lt_upper_bound; [lia |].
      replace (Z.of_nat (S (S fuel'))) with (Z.succ (Z.of_nat (S fuel'))) in Hn by lia.
      rewrite Z.pow_succ_r in Hn by lia. lia.
    + exists q. intros a. rewrite Hq. f_equal.
      pose proof (Z.div_mod n 10 ltac:(lia)) as Hdm. nia.
Qed.

Lemma digits_of_nonempty fuel : ∀ n acc, 0 < fuel -> digits_of fuel n acc ≠ [].
Proof.
  induction fuel as [|fuel IH]; intros n acc Hfuel; [lia |].
  cbn [digits_of]. cbv zeta. destruct (n <? 10)%Z; [done |].
  destruct fuel as [|fuel']; [done |]. apply IH. lia.
Qed.

Lemma decimal_of_digits n :
  (0 <= n)%Z ->
  digits_of (S (Z.to_nat (Z.log2 n))) n [] ≠ []
  ∧ decimal 0%Z (digits_of (S (Z.to_nat (Z.log2 n))) n []) = Some n.
Proof.
  intros Hn. split; [apply digits_of_nonempty; lia |].
  destruct (decimal_digits_of (S (Z.to_nat (Z.log2 n))) n [] 1%Z 0%Z) as [q Hq].
  - split; [done |].
    destruct (Z.eq_dec n 0%Z) as [->|Hne]; [done |].
    rewrite Nat2Z.inj_succ, Z2Nat.id by apply Z.log2_nonneg.
    pose proof (Z.log2_spec n ltac:(lia)) as [_ Hlog].
    eapply Z.lt_le_trans; [exact Hlog |].
    apply Z.pow_le_mono_l. lia.
  - lia.
  - intros a. cbn [decimal]. f_equal. lia.
  - rewrite Hq. f_equal. lia.
Qed.

(** The text that [strconv.Itoa] writes is read back as the integer. *)
Lemma signed_decimal_text n : signed_decimal (chars (decimal_text n)) = Some n.
Proof.
  unfold decimal_text. destruct (Z.ltb_spec n 0) as [Hneg|Hpos]; rewrite chars_text.
  - destruct (decimal_of_digits (- n)%Z ltac:(lia)) as [Hne Hval].
    cbn [signed_decimal].
    destruct (digits_of _ _ _) as [|d ds]; [done |].
    rewrite Hval. simpl. f_equal. lia.
  - destruct (decimal_of_digits n Hpos) as [Hne Hval].
    destruct (digits_of _ _ _) as [|d ds] eqn:E; [done |].
    unfold signed_decimal.
    destruct (Ascii.eqb_spec d "-") as [->|Hd].
    + cbn [decimal] in Hval. by vm_compute in Hval.
    + destruct d as [[] [] [] [] [] [] [] []]; try done.
Qed.

Lemma store_member_quoted key f n e :
  find_field key = Some (FInt f) ->
  store_member key (Json.Str (decimal_text n)) e
  = if fits (bits_of f) n then Some (set_int f n e) else None.
Proof.
  intros Hkey. unfold store_member. rewrite Hkey.
  destruct (String.eqb_spec (decimal_text n) "null") as [Heq|_].
  - pose proof (signed_decimal_text n) as H. rewrite Heq in H. by vm_compute in H.
  - unfold quoted_int. rewrite signed_decimal_text. simpl.
    by destruct (fits _ n).
Qed.

(** X20.  The two numbers of an entry are read from quoted integers and
    checked against the width of their fields, 32 bits for the severity and
    64 for the time.  A line in which such a field carries the decimal text
    of an integer that does not fit is dropped whole.  When the last member
    of a line carries the decimal text of an integer that fits, the field is
    that integer in the decoded entry, as it is written and not cut to fit.
    So in every decoded entry the severity fits in 32 bits and the time
    in 64. *)
Theorem quoted_numbers_are_checked line ms key f n :
  Json.parse line = Some (Json.Obj ms) ->
  find_field key = Some (FInt f) ->
  ((key, Json.Str (decimal_text n)) ∈ ms -> fits (bits_of f) n = false ->
   Unmarshal_entry line = DecodeError)
  ∧ (∀ ms' e, ms = ms' ++ [(key, Json.Str (decimal_text n))] ->
       fits (bits_of f) n = true ->
       Unmarshal_entry line = Decoded e -> get_int f e = n)
  ∧ (∀ e, Unmarshal_entry line = Decoded e ->
       int32 (Priority e) ∧ int64 (Realtime_timestamp e)).
Proof.
  intros Hparse Hkey. unfold Unmarshal_entry. rewrite Hparse. split_and!.
  - intros Hin Hfit. rewrite (store_members_fail key _ ms Hin); [done |].
    intros e. by rewrite (store_member_quoted key f n e Hkey), Hfit.
  - intros ms' e -> Hfit. rewrite store_members_app.
    destruct (store_members ms' zero_entry) as [e1|]; [|done].
    cbn [mbind option_bind store_members].
    rewrite (store_member_quoted key f n e1 Hkey), Hfit. simpl.
    intros [= <-]. by destruct f.
  - intros e. destruct (store_members ms zero_entry) as [e1|] eqn:E; [|done].
    intros [= <-]. eapply store_members_numbers; [exact E |].
    unfold int32, int64. simpl. lia.
Qed.

Lemma quoted_numbers_are_checked_witness :
  Json.parse wide_priority_line
  = Some (Json.Obj [("MESSAGE", Json.Str "hello");
                    ("PRIORITY", Json.Str (decimal_text (2 ^ 31)))])
  ∧ find_field "PRIORITY" = Some (FInt F_Priority)
  ∧ fits (bits_of F_Priority) (2 ^ 31) = false
  ∧ Unmarshal_entry wide_priority_line = DecodeError.
Proof.
  assert (H1 : Json.parse wide_priority_line
               = Some (Json.Obj [("MESSAGE", Json.Str "hello");
                                 ("PRIORITY", Json.Str (decimal_text (2 ^ 31)))]))
    by (vm_compute; reflexivity).
  assert (H2 : find_field "PRIORITY" = Some (FInt F_Priority)) by (vm_compute; reflexivity).
  assert (H3 : fits (bits_of F_Priority) (2 ^ 31) = false) by (vm_compute; reflexivity).
  split; [exact H1 |]. split; [exact H2 |]. split; [exact H3 |].
  refine (proj1 (quoted_numbers_are_checked wide_priority_line _ "PRIORITY" F_Priority
                   (2 ^ 31) H1 H2) _ H3).
  rewrite !elem_of_cons. right. by left.
Defined.

(** A key is matched to a field under Unicode case folding: the key
    MESSAGE written with the long s names the message. *)
Lemma long_s_key_names_message : find_field long_s_key = Some (FString F_Message).
Proof. vm_compute. reflexivity. Qed.

(** X22.  A member whose key names no field of the entry, under the case
    folding of the decoder, is ignored, whatever its value and wherever it
    stands in the line: the line decodes as it does without that member,
    and nothing of the member reaches the entry. *)
Theorem unknown_member_is_ignored line key v ms1 ms2 :
  Json.parse line = Some (Json.Obj (ms1 ++ (key, v) :: ms2)) ->
  find_field key = None ->
  Unmarshal_entry line
  = match store_members (ms1 ++ ms2) zero_entry with
    | Some e => Decoded e
    | None => DecodeError
    end.
Proof.
  intros Hparse Hkey. unfold Unmarshal_entry. rewrite Hparse, !store_members_app.
  destruct (store_members ms1 zero_entry) as [e1|]; [|done].
  cbn [mbind option_bind store_members]. unfold store_member at 1. by rewrite Hkey.
Qed.

Lemma unknown_member_is_ignored_witness :
  Json.parse selinux_line
  = Some (Json.Obj ([] ++ ("_SELINUX_CONTEXT", Json.Str "unconfined")
                       :: [("MESSAGE", Json.Str "hello"); ("PRIORITY", Json.Str "99")]))
  ∧ find_field "_SELINUX_CONTEXT" = None
  ∧ Unmarshal_entry selinux_line = Decoded priority_99_entry.
Proof.
  assert (H1 : Json.parse selinux_line
               = Some (Json.Obj ([] ++ ("_SELINUX_CONTEXT", Json.Str "unconfined")
                            :: [("MESSAGE", Json.Str "hello"); ("PRIORITY", Json.Str "99")])))
    by (vm_compute; reflexivity).
  assert (H2 : find_field "_SELINUX_CONTEXT" = None) by (vm_compute; reflexivity).
  split; [exact H1 |]. split; [exact H2 |].
  etrans; [exact (unknown_member_is_ignored selinux_line "_SELINUX_CONTEXT"
                    (Json.Str "unconfined") [] _ H1 H2) |].
  vm_compute. reflexivity.
Defined.
(** ** The start of the program *)

(** X21.  The program goes on past its start only when [os.Args] holds the
    name of the program, the server and at least one parameter for
    journalctl, and the writer connects; journalctl is then run with --all
    and --output=json followed by those parameters, unchanged and in their
    order.  With the server alone it ends with the status 1. *)
Theorem startup_needs_a_parameter NewWriter Args server command :
  startup NewWriter Args = Started server command ->
  ∃ program parameter parameters,
    Args = program :: server :: parameter :: parameters
    ∧ NewWriter server = None
    ∧ command = "journalctl" :: "--all" :: "--output=json" :: parameter :: parameters.
Proof.
  unfold startup.
  destruct Args as [|program [|server' [|parameter parameters]]]; try done.
  cbn [length Nat.ltb Nat.leb nth].
  destruct (NewWriter server') eqn:E; [done |]. intros [= <- <-].
  by exists program, parameter, parameters.
Qed.

Lemma startup_needs_a_parameter_witness :
  startup connects ["SystemdJournal2Gelf"; "localhost:12201"; "--follow"]
  = Started "localhost:12201" ["journalctl"; "--all"; "--output=json"; "--follow"]
  ∧ startup connects ["SystemdJournal2Gelf"; "localhost:12201"]
    = Fatal "Pass server:12201 as first argument and append journalctl parameters to use" 1
  ∧ ∃ program parameter parameters,
      ["SystemdJournal2Gelf"; "localhost:12201"; "--follow"]
      = program :: "localhost:12201" :: parameter :: parameters
      ∧ connects "localhost:12201" = None
      ∧ ["journalctl"; "--all"; "--output=json"; "--follow"]
        = "journalctl" :: "--all" :: "--output=json" :: parameter :: parameters.
Proof.
  assert (H : startup connects ["SystemdJournal2Gelf"; "localhost:12201"; "--follow"]
              = Started "localhost:12201"
                  ["journalctl"; "--all"; "--output=json"; "--follow"]) by reflexivity.
  split; [exact H |]. split; [reflexivity |].
  exact (startup_needs_a_parameter connects _ _ _ H).
Defined.
(** ** From the line to the envelope *)

Lemma Split_first_sublist s sep : Split_first s sep `sublist_of` s.
Proof.
  induction s as [|c s IH]; simpl; [done |].
  destruct (Ascii.eqb c sep); [apply sublist_nil_l | by apply sublist_skip].
Qed.

(** X23.  [process] followed by [toGelf]: the envelope of an entry carries
    the host name, the time and the facility of the entry as it was decoded,
    and the severity that [process] has left; and when the processed message
    is not JSON-shaped, its short message is the decoded message with pieces
    left out, so that nothing is ever added to a message on its way. *)
Theorem envelope_of_processed_entry (e e' : SystemdJournalEntry) (g : GelfMessage) :
  toGelf (process e) = Returns (e', g) ->
  Host g = Hostname e
  ∧ TimeUnix g = Realtime_timestamp e
  ∧ Facility g = (if String.eqb "" (Syslog_identifier e)
                  then Comm e else Syslog_identifier e)
  ∧ Level g = Priority (process e)
  ∧ (isJsonMessage (process e) = false ->
     chars (Short g) `sublist_of` chars (Message e)).
Proof.
  intros Hconv.
  assert (Hsub : chars (Message (process e)) `sublist_of` chars (Message e)).
  { rewrite process_unfold. cbv zeta.
    destruct (rule_of e) as [re|];
      [|rewrite Message_set_Message; apply strip_timestamp_sublist].
    destruct (Regexp.doExecute _ _ _) as [m|];
      [|rewrite Message_set_Message; apply strip_timestamp_sublist].
    rewrite Message_set_Message.
    etrans; [apply ReplaceAllString_sublist | apply strip_timestamp_sublist]. }
  pose proof (process_frame e) as Hframe.
  revert Hconv. unfold toGelf.
  destruct (expand_message (process e) (extra_of (process e)))
    as [[this1 extra1]|] eqn:E; [|done].
  intros [= <- <-]. cbn [Host TimeUnix Facility Level Short].
  pose proof (expand_message_frame _ _ _ _ E) as Hframe1.
  split_and!.
  - rewrite Hframe1, Hframe. reflexivity.
  - rewrite Hframe1, Hframe. reflexivity.
  - rewrite Hframe. reflexivity.
  - rewrite Hframe1. reflexivity.
  - intros Hshape. unfold expand_message in E. rewrite Hshape in E.
    destruct (negb _); injection E as <- _; [|done].
    rewrite Message_set_Message, chars_text.
    change (Message (set_FullMessage _ (process e))) with (Message (process e)).
    etrans; [apply Split_first_sublist | exact Hsub].
Qed.

Lemma envelope_of_processed_entry_witness :
  ∃ e' g,
    toGelf (process nginx_entry) = Returns (e', g)
    ∧ Host g = Hostname nginx_entry
    ∧ TimeUnix g = Realtime_timestamp nginx_entry
    ∧ Facility g = (if String.eqb "" (Syslog_identifier nginx_entry)
                    then Comm nginx_entry else Syslog_identifier nginx_entry)
    ∧ Level g = Priority (process nginx_entry)
    ∧ (isJsonMessage (process nginx_entry) = false ->
       chars (Short g) `sublist_of` chars (Message nginx_entry)).
Proof.
  destruct (toGelf (process nginx_entry)) as [[e' g]|] eqn:E; [|by vm_compute in E].
  exists e', g. split; [reflexivity |].
  exact (envelope_of_processed_entry nginx_entry e' g E).
Defined.

